(** * illa-helper: translation cache, AI translation provider, tooltip
      renderer and the background configuration check

    A shallow embedding of
    - [AITranslationProvider] (the TTL cache wrapped around the AI call),
    - [TooltipRenderer] (markup templates and the patching of a live tooltip),
    - the [validate-configuration] branch of the background message listener,
    followed by the properties of the written specification, and then by
    further properties of the same code: the phonetic interface of the
    provider, the nested word tooltip, the phonetic patch and the
    [translate-page] command. *)

From Stdlib Require Import List ZArith NArith QArith Bool Lia String Ascii.
From Stdlib Require Import DecimalString.
Import ListNotations.

Local Open Scope Z_scope.

(* ===================================================================== *)
(** * JavaScript strings *)
(* ===================================================================== *)

(** A JavaScript string is a sequence of UTF-16 code units: [length],
    [substring] and [trim] all count and cut in code units. *)
Definition codeunit := N.
Definition jsstring := list codeunit.

(** Source literals are written as UTF-8 text; [js] decodes the bytes of a
    literal into its code units (a code point above the basic plane gives a
    surrogate pair). *)
Fixpoint js (s : string) : jsstring :=
  match s with
  | EmptyString => []
  | String a r =>
    let b0 := N_of_ascii a in
    if (b0 <? 128)%N then b0 :: js r
    else if (b0 <? 224)%N then
      match r with
      | String b r' =>
        ((b0 mod 32) * 64 + N_of_ascii b mod 64)%N :: js r'
      | EmptyString => [b0]
      end
    else if (b0 <? 240)%N then
      match r with
      | String b (String c r') =>
        ((b0 mod 16) * 4096 + (N_of_ascii b mod 64) * 64
         + N_of_ascii c mod 64)%N :: js r'
      | _ => [b0]
      end
    else
      match r with
      | String b (String c (String d r')) =>
        let cp := ((b0 mod 8) * 262144 + (N_of_ascii b mod 64) * 4096
                   + (N_of_ascii c mod 64) * 64 + N_of_ascii d mod 64)%N in
        let v := (cp - 65536)%N in
        (55296 + v / 1024)%N :: (56320 + v mod 1024)%N :: js r'
      | _ => [b0]
      end
  end.

(** Markup templates hold double quotes.  They are transcribed with an
    apostrophe in each such place (the templates of the source hold no
    apostrophe of their own) and [tpl] puts the double quote back. *)
Definition tpl (s : string) : jsstring :=
  map (fun u => if (u =? 39)%N then 34%N else u) (js s).

Fixpoint jsstring_eqb (a b : jsstring) : bool :=
  match a, b with
  | [], [] => true
  | x :: a', y :: b' => (x =? y)%N && jsstring_eqb a' b'
  | _, _ => false
  end.

(** Truthiness of a string value: every string but the empty one. *)
Definition truthy (s : jsstring) : bool :=
  match s with [] => false | _ :: _ => true end.

(** [a || b] on strings. *)
Definition or_else (a b : jsstring) : jsstring :=
  if truthy a then a else b.

(** ECMAScript WhiteSpace and LineTerminator code units, the ones
    [String.prototype.trim] removes at both ends. *)
Definition isWhiteSpace (u : codeunit) : bool :=
  ((9 <=? u) && (u <=? 13) || (u =? 32) || (u =? 160) || (u =? 5760)
   || (8192 <=? u) && (u <=? 8202) || (u =? 8232) || (u =? 8233)
   || (u =? 8239) || (u =? 8287) || (u =? 12288) || (u =? 65279))%N.

Fixpoint trimStart (s : jsstring) : jsstring :=
  match s with
  | [] => []
  | u :: r => if isWhiteSpace u then trimStart r else s
  end.

Definition trimEnd (s : jsstring) : jsstring := rev (trimStart (rev s)).

Definition trim (s : jsstring) : jsstring := trimEnd (trimStart s).

(** [s.substring(0, n)]. *)
Definition substring0 (n : nat) (s : jsstring) : jsstring := firstn n s.

(** Lower-casing of the letters A to Z, the instance of [toLowerCase] used
    for English words in the examples. *)
Definition asciiToLowerCase (s : jsstring) : jsstring :=
  map (fun u => if ((65 <=? u) && (u <=? 90))%N then (u + 32)%N else u) s.

(* ===================================================================== *)
(** * What the sources import from elsewhere *)
(* ===================================================================== *)

(** [String.prototype.toLowerCase] is the host's Unicode lower-casing.
    [cleanMarkdownFromResponse] ([@/src/utils]), the cache lifetime
    [API_CONSTANTS.AI_TRANSLATION_CACHE_TTL] and the icon
    [SVG_ICONS.SPEAKER] ([../config]) and [DOMUtils.extractWords]
    ([../utils]) are declared in files of the repository that are not among
    the sources read here.  [interactiveWordEntry] is the markup that
    [DOMUtils.createInteractiveWordList] gives to one word. *)
Class Imports := {
  toLowerCase : jsstring -> jsstring;
  cleanMarkdownFromResponse : jsstring -> jsstring;
  AI_TRANSLATION_CACHE_TTL : Z;
  SVG_ICONS_SPEAKER : jsstring;
  extractWords : jsstring -> list jsstring;
  interactiveWordEntry : jsstring -> jsstring
}.

(* ===================================================================== *)
(** * [Map<string, V>]: keys in insertion order *)
(* ===================================================================== *)

Module JsMap.
Section WithValue.
Context {V : Type}.

(** The entries in insertion order, oldest first. *)
Definition t := list (jsstring * V).

Definition empty : t := [].

Fixpoint get (k : jsstring) (m : t) : option V :=
  match m with
  | [] => None
  | (k', v) :: r => if jsstring_eqb k k' then Some v else get k r
  end.

Definition has (k : jsstring) (m : t) : bool :=
  match get k m with Some _ => true | None => false end.

(** [set] on a present key replaces the value where the key stands; a new
    key goes to the end. *)
Fixpoint set (k : jsstring) (v : V) (m : t) : t :=
  match m with
  | [] => [(k, v)]
  | (k', v') :: r =>
    if jsstring_eqb k k' then (k', v) :: r else (k', v') :: set k v r
  end.

Definition delete (k : jsstring) (m : t) : t :=
  filter (fun e => negb (jsstring_eqb k (fst e))) m.

Definition size (m : t) : Z := Z.of_nat (List.length m).

Definition keys (m : t) : list jsstring := map fst m.

(** [m.keys().next().value]: [None] stands for [undefined]. *)
Definition first_key (m : t) : option jsstring :=
  match keys m with
  | [] => None
  | k :: _ => Some k
  end.

(** A [Map] holds each key once. *)
Definition wf (m : t) : Prop := NoDup (keys m).

End WithValue.
Arguments t V : clear implicits.
Arguments empty V : clear implicits.
End JsMap.

(* ===================================================================== *)
(** * Translation cache *)
(* ===================================================================== *)

Record AITranslationEntry := {
  explain : jsstring;
  source : jsstring
}.

Record CacheEntry := {
  data : AITranslationEntry;
  timestamp : Z;
  ttl : Z
}.

Definition Cache := JsMap.t CacheEntry.

(** [getFromCache(word)], with [now] the value of [Date.now()]: the entry
    found or [None] for [null], and the cache afterwards. *)
Definition getFromCache (cache : Cache) (now : Z) (word : jsstring)
  : option AITranslationEntry * Cache :=
  match JsMap.get word cache with
  | Some entry =>
    if now - timestamp entry <? ttl entry then (Some (data entry), cache)
    else (None, JsMap.delete word cache)
  | None => (None, cache)
  end.

(** [setCache(word, data)], with [cacheTTL] the field of the provider. *)
Definition setCache (cacheTTL : Z) (cache : Cache) (now : Z)
  (word : jsstring) (d : AITranslationEntry) : Cache :=
  let cache1 :=
    JsMap.set word {| data := d; timestamp := now; ttl := cacheTTL |} cache in
  if 500 <? JsMap.size cache1 then
    match JsMap.first_key cache1 with
    | Some oldestKey =>
      if truthy oldestKey then JsMap.delete oldestKey cache1 else cache1
    | None => cache1
    end
  else cache1.

(** A run of cache operations, each with its reading of the clock. *)
Inductive CacheOp :=
| OpGet (now : Z) (word : jsstring)
| OpSet (now : Z) (word : jsstring) (d : AITranslationEntry).

Definition applyOp (cacheTTL : Z) (cache : Cache) (op : CacheOp) : Cache :=
  match op with
  | OpGet now word => snd (getFromCache cache now word)
  | OpSet now word d => setCache cacheTTL cache now word d
  end.

Definition runOps (cacheTTL : Z) (cache : Cache) (ops : list CacheOp) : Cache :=
  fold_left (applyOp cacheTTL) ops cache.

Definition setsKey (word : jsstring) (op : CacheOp) : bool :=
  match op with
  | OpGet _ _ => false
  | OpSet _ k _ => jsstring_eqb k word
  end.

(* ===================================================================== *)
(** * [AITranslationProvider] *)
(* ===================================================================== *)

(** The fields of [ApiConfig] the provider reads. *)
Record ApiConfig := {
  apiKey : jsstring;
  apiEndpoint : jsstring;
  temperature : Q;
  customParams : jsstring
}.

(** The second argument of [UniversalApiService.call]. *)
Record ApiCallOptions := {
  systemPrompt : jsstring;
  callTemperature : Q;
  maxTokens : Z;
  callTimeout : Z;
  callCustomParams : jsstring
}.

(** What [UniversalApiService.call] resolves to. *)
Record ApiCallResult := {
  callSuccess : bool;
  content : option jsstring;
  callError : option jsstring
}.

(** How the awaited call settles: with a result, or by throwing; the
    message is [Some] when the thrown value is an [Error]. *)
Inductive Settled :=
| Fulfilled (result : ApiCallResult)
| Rejected (message : option jsstring).

Record AITranslationResult := {
  success : bool;
  resultData : option AITranslationEntry;
  cached : option bool;
  error : option jsstring
}.

(** The argument of [getMeaning] as it arrives at run time. *)
Inductive jsvalue :=
| JUndefined
| JNull
| JString (s : jsstring)
| JOther.

Record AITranslationProvider := {
  apiConfig : ApiConfig;
  timeout : Z;
  cache : Cache;
  cacheTTL : Z
}.

Definition withCache (p : AITranslationProvider) (c : Cache)
  : AITranslationProvider :=
  {| apiConfig := apiConfig p; timeout := timeout p; cache := c;
     cacheTTL := cacheTTL p |}.

Definition updateApiConfig (p : AITranslationProvider) (cfg : ApiConfig)
  (t : option Z) : AITranslationProvider :=
  {| apiConfig := cfg;
     timeout := match t with Some v => v | None => timeout p end;
     cache := cache p; cacheTTL := cacheTTL p |}.

Definition failed (msg : jsstring) : AITranslationResult :=
  {| success := false; resultData := None; cached := None;
     error := Some msg |}.

Definition succeeded (d : AITranslationEntry) (fromCache : bool)
  : AITranslationResult :=
  {| success := true; resultData := Some d; cached := Some fromCache;
     error := None |}.

Definition providerName : jsstring := js "ai-translation".

Definition invalidWordMessage : jsstring := js "单词参数无效".
Definition missingKeyMessage : jsstring := js "AI API配置不完整：缺少API Key".
Definition requestFailedMessage : jsstring := js "AI翻译请求失败".
Definition unknownErrorMessage : jsstring := js "未知错误".
Definition meaningUnavailable : jsstring := js " 的释义暂不可用".

Definition dictionaryPrompt : jsstring :=
  js "你是一个专业的英语词典助手。请为用户提供准确、简洁的中文词义解释。
要求：
1. 只返回单词的中文释义，格式为：词性 + 释义
2. 如果有多个词性，用分号分隔
3. 释义要简洁准确，适合快速理解
4. 不要包含例句或其他额外信息
5. 返回格式为纯文本，不要JSON

示例：
输入：hello
输出：interj. 你好；n. 打招呼

输入：beautiful
输出：adj. 美丽的，漂亮的".

(** [getMeaning] suspends once, at the awaited call. *)
Inductive Pending :=
| Resolved (r : AITranslationResult)
| Awaiting (cleanWord : jsstring) (options : ApiCallOptions).

Section Provider.
Context {I : Imports}.

Definition newProvider (cfg : ApiConfig) (t : Z) : AITranslationProvider :=
  {| apiConfig := cfg; timeout := t; cache := JsMap.empty CacheEntry;
     cacheTTL := AI_TRANSLATION_CACHE_TTL |}.

(** [parseAIResponse(content, word)]; [None] is a missing content. *)
Definition parseAIResponse (content : option jsstring) (word : jsstring)
  : AITranslationEntry :=
  let explain0 :=
    or_else (match content with Some c => trim c | None => [] end) [] in
  let explain1 :=
    if negb (truthy explain0) then word ++ meaningUnavailable
    else
      let cleaned := cleanMarkdownFromResponse explain0 in
      if (200 <? List.length cleaned)%nat
      then substring0 200 cleaned ++ js "..."
      else cleaned in
  {| explain := explain1; source := js "ai-translation" |}.

(** The options [getMeaning] passes to [UniversalApiService.call]. *)
Definition callOptions (p : AITranslationProvider) : ApiCallOptions :=
  {| systemPrompt := dictionaryPrompt;
     callTemperature :=
       (if Qeq_bool (temperature (apiConfig p)) 0
        then 0 else temperature (apiConfig p))%Q;
     maxTokens := 100;
     callTimeout := timeout p;
     callCustomParams := customParams (apiConfig p) |}.

(** [getMeaning] up to the awaited call; [now] is the clock read by
    [getFromCache]. *)
Definition getMeaning_enter (p : AITranslationProvider) (now : Z)
  (word : jsvalue) : AITranslationProvider * Pending :=
  match word with
  | JString s =>
    if negb (truthy s) then (p, Resolved (failed invalidWordMessage))
    else
      let cleanWord := trim (toLowerCase s) in
      let (hit, cache1) := getFromCache (cache p) now cleanWord in
      let p1 := withCache p cache1 in
      match hit with
      | Some d => (p1, Resolved (succeeded d true))
      | None =>
        if negb (truthy (apiKey (apiConfig p1)))
        then (p1, Resolved (failed missingKeyMessage))
        else (p1, Awaiting cleanWord (callOptions p1))
      end
  | _ => (p, Resolved (failed invalidWordMessage))
  end.

(** [getMeaning] from the moment the call settles; [now] is the clock read
    by [setCache]. *)
Definition getMeaning_settle (p : AITranslationProvider) (now : Z)
  (cleanWord : jsstring) (reply : Settled)
  : AITranslationProvider * AITranslationResult :=
  match reply with
  | Rejected (Some message) => (p, failed message)
  | Rejected None => (p, failed unknownErrorMessage)
  | Fulfilled result =>
    if negb (callSuccess result)
    then (p, failed (or_else (match callError result with
                              | Some e => e
                              | None => []
                              end) requestFailedMessage))
    else
      let meaningInfo := parseAIResponse (content result) cleanWord in
      (withCache p (setCache (cacheTTL p) (cache p) now cleanWord meaningInfo),
       succeeded meaningInfo false)
  end.

(** One whole call with nothing running in between: the provider
    afterwards, the result, and the calls made to the AI service. *)
Definition getMeaning (p : AITranslationProvider) (tEnter tSettle : Z)
  (reply : Settled) (word : jsvalue)
  : AITranslationProvider * AITranslationResult
    * list (jsstring * ApiCallOptions) :=
  match getMeaning_enter p tEnter word with
  | (p1, Resolved r) => (p1, r, [])
  | (p1, Awaiting cleanWord options) =>
    let (p2, r) := getMeaning_settle p1 tSettle cleanWord reply in
    (p2, r, [(cleanWord, options)])
  end.

(** A series of calls one after another, each with its two clock readings
    and the way its request would settle. *)
Record Call := {
  callEnter : Z;
  callSettle : Z;
  callReply : Settled;
  callWord : jsvalue
}.

Fixpoint getMeanings (p : AITranslationProvider) (cs : list Call)
  : AITranslationProvider * list AITranslationResult
    * list (jsstring * ApiCallOptions) :=
  match cs with
  | [] => (p, [], [])
  | c :: rest =>
    let '(p1, r, sent) :=
      getMeaning p (callEnter c) (callSettle c) (callReply c) (callWord c) in
    let '(p2, rs, sent') := getMeanings p1 rest in
    (p2, r :: rs, sent ++ sent')
  end.

End Provider.

(* ===================================================================== *)
(** * [TooltipRenderer]: markup *)
(* ===================================================================== *)

Record PhoneticEntry := {
  text : option jsstring
}.

Record PhoneticErrorInfo := {
  hasPhoneticError : bool;
  phoneticErrorMessage : option jsstring
}.

Record PhoneticInfo := {
  phonetics : list PhoneticEntry;
  aiTranslation : option AITranslationEntry;
  phoneticError : option PhoneticErrorInfo
}.

Record PronunciationElementData := {
  word : jsstring;
  phonetic : option PhoneticInfo
}.

Record PronunciationUIConfig := {
  showPlayButton : bool
}.

(** A template placeholder filled with a value that may be [undefined]. *)
Definition interpolate (v : option jsstring) : jsstring :=
  match v with Some s => s | None => js "undefined" end.

Definition meaningLoadingMarkup : jsstring :=
  tpl "<div class='wxt-meaning-loading'>获取词义中...</div>".

Definition meaningTextMarkup (explanation : jsstring) : jsstring :=
  tpl "<div class='wxt-meaning-text'>" ++ explanation ++ tpl "</div>".

Section Renderer.
Context {I : Imports}.

(** Modelled from the spec: [DOMUtils.createInteractiveWordList] is in
    [../utils], which is not among the sources; the phrase view holds one
    interactive entry per token.  The markup of one entry is left open
    ([interactiveWordEntry]). *)
Definition createInteractiveWordList (words : list jsstring) : jsstring :=
  List.concat (map interactiveWordEntry words).

Definition playButton (uiConfig : PronunciationUIConfig) (title : string)
  : jsstring :=
  if showPlayButton uiConfig
  then tpl "
            <button class='wxt-audio-btn' title='" ++ tpl title ++ tpl "'>
              " ++ SVG_ICONS_SPEAKER ++ tpl "
            </button>
          "
  else [].

Definition createPhraseTooltipHTML (uiConfig : PronunciationUIConfig)
  (phrase : jsstring) (words : list jsstring) : jsstring :=
  let interactiveWordList := createInteractiveWordList words in
  tpl "
      <div class='wxt-tooltip-card'>
        <div class='wxt-tooltip-header'>
          <div class='wxt-word-info'>
            <div class='wxt-phrase-text'>" ++ phrase ++ tpl "</div>
          </div>
          " ++ playButton uiConfig "朗读" ++ tpl "
        </div>
        <div class='wxt-tooltip-body'>
          <div class='wxt-phrase-words'>" ++ interactiveWordList ++ tpl "</div>
        </div>
        <div class='wxt-tooltip-arrow'></div>
      </div>
    ".

Definition phoneticDisplayOf (elementData : PronunciationElementData)
  : jsstring :=
  let phoneticText :=
    or_else (match phonetic elementData with
             | Some p => match phonetics p with
                         | e :: _ => match text e with
                                     | Some t => t
                                     | None => []
                                     end
                         | [] => []
                         end
             | None => []
             end) [] in
  let err :=
    match phonetic elementData with
    | Some p => phoneticError p
    | None => None
    end in
  let hasError :=
    match err with Some e => hasPhoneticError e | None => false end in
  let phoneticErrorMessage_ :=
    match err with Some e => phoneticErrorMessage e | None => None end in
  if truthy phoneticText
  then tpl "<div class='wxt-phonetic-row'><div class='wxt-phonetic-text'>"
       ++ phoneticText ++ tpl "</div></div>"
  else if hasError
  then tpl "<div class='wxt-phonetic-row'><div class='wxt-phonetic-error'>"
       ++ interpolate phoneticErrorMessage_ ++ tpl "</div></div>"
  else tpl "<div class='wxt-phonetic-row'><div class='wxt-phonetic-loading'>获取音标中...</div></div>".

Definition createWordTooltipHTML (uiConfig : PronunciationUIConfig)
  (elementData : PronunciationElementData) : jsstring :=
  let aiTranslation_ :=
    match phonetic elementData with
    | Some p => aiTranslation p
    | None => None
    end in
  tpl "
      <div class='wxt-tooltip-card'>
        <div class='wxt-tooltip-header'>
          <div class='wxt-word-info'>
            <div class='wxt-word-main'>" ++ word elementData ++ tpl "</div>
            " ++ phoneticDisplayOf elementData ++ tpl "
            <div class='wxt-meaning-container'>
              " ++ (match aiTranslation_ with
      | Some t => meaningTextMarkup (explain t)
      | None => meaningLoadingMarkup
      end) ++ tpl "
            </div>
          </div>
          " ++ playButton uiConfig "朗读单词" ++ tpl "
        </div>
        <div class='wxt-tooltip-arrow'></div>
      </div>
    ".

Definition createMainTooltipHTML (uiConfig : PronunciationUIConfig)
  (elementData : PronunciationElementData) : jsstring :=
  let words := extractWords (word elementData) in
  let isPhrase := (1 <? List.length words)%nat in
  if isPhrase
  then createPhraseTooltipHTML uiConfig (word elementData) words
  else createWordTooltipHTML uiConfig elementData.

End Renderer.

(* ===================================================================== *)
(** * [TooltipRenderer]: patching a live tooltip *)
(* ===================================================================== *)

(** The part of the document tree the patcher reads and writes: elements
    with their class list, [style.display] and children, and text nodes. *)
#[local] Unset Elimination Schemes.
Inductive Node :=
| Element (tagName : jsstring) (classList : list jsstring)
          (display : option jsstring) (childNodes : list Node)
| TextNode (nodeValue : jsstring).
#[local] Set Elimination Schemes.

(** Induction on a node with the property known of all its children. *)
Section NodeInduction.
Variable P : Node -> Prop.
Hypothesis text_case : forall s, P (TextNode s).
Hypothesis element_case :
  forall t classes d ch, Forall P ch -> P (Element t classes d ch).

Fixpoint Node_forall_ind (n : Node) : P n :=
  match n with
  | TextNode s => text_case s
  | Element t classes d ch =>
    element_case t classes d ch
      ((fix each (l : list Node) : Forall P l :=
          match l with
          | [] => Forall_nil P
          | c :: r => Forall_cons c (Node_forall_ind c) (each r)
          end) ch)
  end.
End NodeInduction.

Definition inClassList (cls : jsstring) (classes : list jsstring) : bool :=
  existsb (jsstring_eqb cls) classes.

Definition children (n : Node) : list Node :=
  match n with
  | Element _ _ _ ch => ch
  | TextNode _ => []
  end.

Definition styleDisplay (n : Node) : option jsstring :=
  match n with
  | Element _ _ d _ => d
  | TextNode _ => None
  end.

Section Forest.
Context {A B : Type}.

(** The first element of a list on which [f] answers, in list order. *)
Fixpoint firstSome (f : A -> option B) (l : list A) : option B :=
  match l with
  | [] => None
  | x :: r => match f x with Some y => Some y | None => firstSome f r end
  end.

(** Replaces, in a list, the first element on which [f] answers by the
    elements of the answer. *)
Fixpoint rewriteFirst (f : A -> option (list A)) (l : list A)
  : option (list A) :=
  match l with
  | [] => None
  | x :: r =>
    match f x with
    | Some repl => Some (repl ++ r)
    | None =>
      match rewriteFirst f r with
      | Some r' => Some (x :: r')
      | None => None
      end
    end
  end.

End Forest.

(** The first element, in tree order, among [n] and what is below it, that
    carries class [cls]. *)
Fixpoint findNode (cls : jsstring) (n : Node) : option Node :=
  match n with
  | TextNode _ => None
  | Element _ classes _ ch =>
    if inClassList cls classes then Some n
    else firstSome (findNode cls) ch
  end.

Definition findForest (cls : jsstring) (l : list Node) : option Node :=
  firstSome (findNode cls) l.

(** [n.querySelector('.cls')]: the first match below [n], [n] excluded. *)
Definition querySelector (cls : jsstring) (n : Node) : option Node :=
  findForest cls (children n).

(** What stands in the place of [n] once the element [querySelector] would
    find (among [n] and below) is replaced by the nodes [g] gives for it;
    [None] when there is no such element. *)
Fixpoint rewriteNode (cls : jsstring) (g : Node -> list Node) (n : Node)
  : option (list Node) :=
  match n with
  | TextNode _ => None
  | Element t classes d ch =>
    if inClassList cls classes then Some (g n)
    else
      match rewriteFirst (rewriteNode cls g) ch with
      | Some ch' => Some [Element t classes d ch']
      | None => None
      end
  end.

Definition rewriteForest (cls : jsstring) (g : Node -> list Node)
  (l : list Node) : option (list Node) :=
  rewriteFirst (rewriteNode cls g) l.

(** [querySelectorAll('.cls').length], counted from [n] itself. *)
Fixpoint countNode (cls : jsstring) (n : Node) : nat :=
  match n with
  | TextNode _ => 0
  | Element _ classes _ ch =>
    ((if inClassList cls classes then 1 else 0)
     + list_sum (map (countNode cls) ch))%nat
  end.

Definition countForest (cls : jsstring) (l : list Node) : nat :=
  list_sum (map (countNode cls) l).

(** The [textContent] getter. *)
Fixpoint textContent (n : Node) : jsstring :=
  match n with
  | TextNode s => s
  | Element _ _ _ ch => List.concat (map textContent ch)
  end.

(** The [textContent] setter: the children give way to one text node, or
    to none for the empty string. *)
Definition setTextContent (s : jsstring) (n : Node) : Node :=
  match n with
  | Element t classes d _ =>
    Element t classes d (if truthy s then [TextNode s] else [])
  | TextNode _ => TextNode s
  end.

Definition setDisplay (v : jsstring) (n : Node) : Node :=
  match n with
  | Element t classes _ ch => Element t classes (Some v) ch
  | TextNode _ => n
  end.

Definition meaningContainerClass : jsstring := js "wxt-meaning-container".
Definition meaningLoadingClass : jsstring := js "wxt-meaning-loading".
Definition meaningTextClass : jsstring := js "wxt-meaning-text".

(** [document.createElement('div')] with [className] set. *)
Definition createDiv (cls : jsstring) : Node :=
  Element (js "div") [cls] None [].

(** The two assignments that end [updateTooltipWithMeaning]. *)
Definition showMeaning (meaning : jsstring) (meaningElement : Node) : Node :=
  setDisplay (js "block") (setTextContent meaning meaningElement).

(** The body of [updateTooltipWithMeaning] once the container is found. *)
Definition patchMeaningContainer (meaning : jsstring)
  (meaningContainer : Node) : Node :=
  match meaningContainer with
  | TextNode _ => meaningContainer
  | Element t classes d ch =>
    let ch1 :=
      match rewriteForest meaningLoadingClass (fun _ => []) ch with
      | Some ch' => ch'
      | None => ch
      end in
    let ch2 :=
      match rewriteForest meaningTextClass
              (fun m => [showMeaning meaning m]) ch1 with
      | Some ch' => ch'
      | None => ch1 ++ [showMeaning meaning (createDiv meaningTextClass)]
      end in
    Element t classes d ch2
  end.

(** [updateTooltipWithMeaning(tooltip, meaning)]: the tooltip afterwards. *)
Definition updateTooltipWithMeaning (tooltip : Node) (meaning : jsstring)
  : Node :=
  match tooltip with
  | TextNode _ => tooltip
  | Element t classes d ch =>
    match rewriteForest meaningContainerClass
            (fun c => [patchMeaningContainer meaning c]) ch with
    | Some ch' => Element t classes d ch'
    | None => tooltip
    end
  end.

(* ===================================================================== *)
(** * Background: the [validate-configuration] request *)
(* ===================================================================== *)

Record ApiConfigItem := {
  id : jsstring;
  config : option ApiConfig
}.

Record UserSettings := {
  apiConfigs : option (list ApiConfigItem);
  activeApiConfigId : jsstring
}.

Record NotificationOptions := {
  notificationType : jsstring;
  title : jsstring;
  message : jsstring;
  iconPath : jsstring
}.

(** The background context as this handler sees it: the flag kept in
    [browser.storage.session] and the notifications created so far, the
    latest first. *)
Record Background := {
  apiKeyNotificationShown : bool;
  created : list NotificationOptions
}.

(** A [validate-configuration] request: what [getUserSettings] gives when
    the handler asks ([None] when it throws) and [message.source]. *)
Record ValidateRequest := {
  settingsRead : option UserSettings;
  requestSource : option jsstring
}.

Definition isConfigValid (settings : UserSettings) : bool :=
  match apiConfigs settings with
  | Some items =>
    match find (fun c => jsstring_eqb (id c) (activeApiConfigId settings))
               items with
    | Some activeConfig =>
      match config activeConfig with
      | Some cfg => truthy (apiKey cfg)
      | None => false
      end
    | None => false
    end
  | None => false
  end.

Definition apiKeyNotification : NotificationOptions :=
  {| notificationType := js "basic";
     title := js "[浸入式学语言助手] API 配置错误";
     message := js "API 密钥未设置。请点击扩展图标进入设置页面进行配置。";
     iconPath := js "/warning.png" |}.

Definition isUserAction (src : option jsstring) : bool :=
  match src with
  | Some s => jsstring_eqb s (js "user_action")
  | None => false
  end.

(** The handler run from start to end: the background afterwards and the
    value passed to [sendResponse]. *)
Definition onValidateConfiguration (bg : Background) (req : ValidateRequest)
  : Background * bool :=
  match settingsRead req with
  | None => (bg, false)
  | Some settings =>
    if isConfigValid settings then (bg, true)
    else if isUserAction (requestSource req)
    then ({| apiKeyNotificationShown := apiKeyNotificationShown bg;
             created := apiKeyNotification :: created bg |}, false)
    else if negb (apiKeyNotificationShown bg)
    then ({| apiKeyNotificationShown := true;
             created := apiKeyNotification :: created bg |}, false)
    else (bg, false)
  end.

(** Requests handled one after another. *)
Definition handleAll (bg : Background) (reqs : list ValidateRequest)
  : Background :=
  fold_left (fun b r => fst (onValidateConfiguration b r)) reqs bg.

Definition userActions (reqs : list ValidateRequest) : nat :=
  List.length (filter (fun r => isUserAction (requestSource r)) reqs).

(* ===================================================================== *)
(** * [AITranslationProvider]: the phonetic interface *)
(* ===================================================================== *)

(** What [getPhonetic] resolves to; the data are the word as it was passed
    in and the [PhoneticInfo] built around the meaning. *)
Record PhoneticResult := {
  phoneticSuccess : bool;
  phoneticData : option (jsvalue * PhoneticInfo);
  phoneticCached : option bool;
  phoneticErrorText : option jsstring
}.

(** The part of [getPhonetic] after the awaited [getMeaning]. *)
Definition toPhoneticResult (word : jsvalue)
  (meaningResult : AITranslationResult) : PhoneticResult :=
  match success meaningResult, resultData meaningResult with
  | true, Some d =>
    {| phoneticSuccess := true;
       phoneticData :=
         Some (word, {| phonetics := []; aiTranslation := Some d;
                        phoneticError := None |});
       phoneticCached := cached meaningResult;
       phoneticErrorText := None |}
  | _, _ =>
    {| phoneticSuccess := false; phoneticData := None;
       phoneticCached := None;
       phoneticErrorText := error meaningResult |}
  end.

Section PhoneticInterface.
Context {I : Imports}.

(** [getPhonetic(word)], one whole call with nothing running in between. *)
Definition getPhonetic (p : AITranslationProvider) (tEnter tSettle : Z)
  (reply : Settled) (word : jsvalue)
  : AITranslationProvider * PhoneticResult
    * list (jsstring * ApiCallOptions) :=
  let '(p1, r, sent) := getMeaning p tEnter tSettle reply word in
  (p1, toPhoneticResult word r, sent).

(** [getBatchPhonetics] at the moment [words.map(...)] returns: every
    [getPhonetic] has run, in the order of the words, up to the point where
    its [getMeaning] either returned or sent its request and suspended.
    Each word comes with the clock its cache lookup reads. *)
Fixpoint startBatch (p : AITranslationProvider) (words : list (Z * jsvalue))
  : AITranslationProvider * list Pending :=
  match words with
  | [] => (p, [])
  | (now, word) :: rest =>
    let (p1, pending) := getMeaning_enter p now word in
    let (p2, pendings) := startBatch p1 rest in
    (p2, pending :: pendings)
  end.

(** [isAvailable()]; [service] is what [UniversalApiService.isAvailable]
    resolves to, [None] when it throws. *)
Definition isAvailable (p : AITranslationProvider) (service : option bool)
  : bool :=
  if negb (truthy (apiKey (apiConfig p))) then false
  else match service with Some b => b | None => false end.

End PhoneticInterface.

(** The requests among the pending calls of a batch. *)
Definition requestsOf (pendings : list Pending)
  : list (jsstring * ApiCallOptions) :=
  flat_map (fun pending =>
              match pending with
              | Resolved _ => []
              | Awaiting w options => [(w, options)]
              end) pendings.

(* ===================================================================== *)
(** * [TooltipRenderer]: the nested word tooltip and the phonetic patch *)
(* ===================================================================== *)

(** [createNestedWordTooltipHTML(word, phoneticText?, hasError?,
    errorMessage?)]; a missing argument is [None].  [speakerSmall] is
    [SVG_ICONS.SPEAKER_SMALL], declared in [../config]. *)
Definition nestedPhoneticDisplay (phoneticText : option jsstring)
  (hasError : option bool) (errorMessage : option jsstring) : jsstring :=
  if truthy (match phoneticText with Some t => t | None => [] end)
  then tpl "<div class='wxt-phonetic-text'>"
       ++ interpolate phoneticText ++ tpl "</div>"
  else if match hasError with Some b => b | None => false end
  then tpl "<div class='wxt-phonetic-error'>"
       ++ or_else (match errorMessage with Some m => m | None => [] end)
                  (js "音标获取失败")
       ++ tpl "</div>"
  else tpl "<div class='wxt-phonetic-loading'>获取音标中...</div>".

Definition createNestedWordTooltipHTML (speakerSmall : jsstring)
  (word_ : jsstring) (phoneticText : option jsstring)
  (hasError : option bool) (errorMessage : option jsstring) : jsstring :=
  let phoneticDisplay :=
    nestedPhoneticDisplay phoneticText hasError errorMessage in
  tpl "
      <div class='wxt-word-tooltip-card'>
        <div class='wxt-word-tooltip-header'>
          <div class='wxt-word-info'>
            <div class='wxt-word-title-row'>
              <div class='wxt-word-main'>" ++ word_ ++ tpl "</div>
              <div class='wxt-accent-buttons'>
                <div class='wxt-accent-group'>
                  <span class='wxt-accent-label'>英</span>
                  <button class='wxt-accent-audio-btn' data-accent='uk' title='英式发音'>
                    " ++ speakerSmall ++ tpl "
                  </button>
                </div>
                <div class='wxt-accent-group'>
                  <span class='wxt-accent-label'>美</span>
                  <button class='wxt-accent-audio-btn' data-accent='us' title='美式发音'>
                    " ++ speakerSmall ++ tpl "
                  </button>
                </div>
              </div>
            </div>
            <div class='wxt-phonetic-row'>" ++ phoneticDisplay ++ tpl "</div>
            <div class='wxt-meaning-container'>
              <div class='wxt-meaning-loading'>获取词义中...</div>
            </div>
          </div>
        </div>
      </div>
    ".

Definition phoneticRowClass : jsstring := js "wxt-phonetic-row".
Definition phoneticLoadingClass : jsstring := js "wxt-phonetic-loading".
Definition phoneticErrorClass : jsstring := js "wxt-phonetic-error".
Definition phoneticTextClass : jsstring := js "wxt-phonetic-text".

(** The element [updateTooltipWithPhonetic] creates for [phoneticInfo]. *)
Definition phoneticElementFor (phoneticInfo : PhoneticInfo) : Node :=
  if match phoneticError phoneticInfo with
     | Some e => hasPhoneticError e
     | None => false
     end
  then
    setTextContent
      (or_else (match phoneticError phoneticInfo with
                | Some e => match phoneticErrorMessage e with
                            | Some m => m
                            | None => []
                            end
                | None => []
                end) (js "音标获取失败"))
      (createDiv phoneticErrorClass)
  else
    match phonetics phoneticInfo with
    | first :: _ =>
      let phoneticText :=
        or_else (match text first with Some t => t | None => [] end) [] in
      if truthy phoneticText
      then setTextContent phoneticText (createDiv phoneticTextClass)
      else setTextContent (js "暂无音标信息") (createDiv phoneticErrorClass)
    | [] => setTextContent (js "暂无音标信息") (createDiv phoneticErrorClass)
    end.

(** The body of [updateTooltipWithPhonetic] once the row is found. *)
Definition patchPhoneticRow (phoneticInfo : PhoneticInfo) (phoneticRow : Node)
  : Node :=
  match phoneticRow with
  | TextNode _ => phoneticRow
  | Element t classes d ch =>
    let ch1 :=
      match rewriteForest phoneticLoadingClass (fun _ => []) ch with
      | Some ch' => ch'
      | None => ch
      end in
    Element t classes d (ch1 ++ [phoneticElementFor phoneticInfo])
  end.

(** [updateTooltipWithPhonetic(tooltip, phoneticInfo)]: the tooltip
    afterwards. *)
Definition updateTooltipWithPhonetic (tooltip : Node)
  (phoneticInfo : PhoneticInfo) : Node :=
  match tooltip with
  | TextNode _ => tooltip
  | Element t classes d ch =>
    match rewriteForest phoneticRowClass
            (fun row => [patchPhoneticRow phoneticInfo row]) ch with
    | Some ch' => Element t classes d ch'
    | None => tooltip
    end
  end.

(* ===================================================================== *)
(** * Background: the [translate-page] command *)
(* ===================================================================== *)

(** [validateApiConfiguration()]: the background afterwards and the value
    returned; [settings] is what [getUserSettings] gives, [None] when it
    throws. *)
Definition validateApiConfiguration (bg : Background)
  (settings : option UserSettings) : Background * bool :=
  match settings with
  | None => (bg, false)
  | Some s =>
    if isConfigValid s then (bg, true)
    else ({| apiKeyNotificationShown := apiKeyNotificationShown bg;
             created := apiKeyNotification :: created bg |}, false)
  end.

Record Tab := {
  tabId : option Z
}.

(** A command as the listener receives it, with what the calls it makes
    answer: the settings read and [tabs.query] ([None] when it throws). *)
Record CommandEvent := {
  command : jsstring;
  commandSettings : option UserSettings;
  activeTabs : option (list Tab)
}.

(** The [onCommand] listener: the background afterwards and the messages
    sent to tabs, each with the id of its tab. *)
Definition onCommand (bg : Background) (ev : CommandEvent)
  : Background * list (Z * jsstring) :=
  if jsstring_eqb (command ev) (js "translate-page") then
    let (bg1, isValid) := validateApiConfiguration bg (commandSettings ev) in
    if negb isValid then (bg1, [])
    else
      match activeTabs ev with
      | Some ({| tabId := Some i |} :: _) =>
        if (i =? 0)%Z then (bg1, [])
        else (bg1, [(i, js "translate-page-command")])
      | _ => (bg1, [])
      end
  else (bg, []).

(* ===================================================================== *)
(** * Notions used to state the properties *)
(* ===================================================================== *)




(** A request reaches the part of the handler that deals with a missing
    key when the settings could be read and the active configuration has
    no API key. *)
Definition keyMissing (req : ValidateRequest) : bool :=
  match settingsRead req with
  | Some settings => negb (isConfigValid settings)
  | None => false
  end.

(** The requests of a series that come from a user action and find the key
    missing, and whether some other request of the series finds it missing. *)
Definition userActionAlerts (reqs : list ValidateRequest) : nat :=
  List.length
    (filter (fun r => keyMissing r && isUserAction (requestSource r)) reqs).

Definition pageLoadAlert (reqs : list ValidateRequest) : bool :=
  existsb (fun r => keyMissing r && negb (isUserAction (requestSource r)))
          reqs.

(** [frag] occurs in [s]. *)
Definition contains (frag s : jsstring) : Prop :=
  exists pre post, s = pre ++ frag ++ post.

(** The meaning block of the word view around its content. *)
Definition meaningBlock (inner : jsstring) : jsstring :=
  tpl "<div class='wxt-meaning-container'>
              " ++ inner ++ tpl "
            </div>".

(** A forest with one hole, given as the function that fills the hole.
    Filling adds the matches of the filling to those around the hole, and
    a search for [cls] that finds something in the filling reaches it:
    nothing before the hole carries [cls]. *)
Record HoleContext (cls : jsstring) (ctx : list Node -> list Node) : Prop := {
  hole_count : forall c repl,
    countForest c (ctx repl)
    = (countForest c (ctx []) + countForest c repl)%nat;
  hole_rewrite : forall g repl repl',
    rewriteForest cls g repl = Some repl' ->
    rewriteForest cls g (ctx repl) = Some (ctx repl');
  hole_find : forall repl y,
    findForest cls repl = Some y -> findForest cls (ctx repl) = Some y
}.

(** The forest [l] is [ctx] with the element [x], the first to carry
    [cls], in the hole; rewriting that element rewrites the filling. *)
Definition Decomposed (cls : jsstring) (l : list Node) (x : Node)
  (ctx : list Node -> list Node) : Prop :=
  HoleContext cls ctx /\ ctx [x] = l /\
  (exists t classes d ch,
     x = Element t classes d ch /\ inClassList cls classes = true) /\
  (forall g, rewriteForest cls g l = Some (ctx (g x))).

(* ===================================================================== *)
(** * Sample instances for the examples *)
(* ===================================================================== *)

(** Splits at spaces, dropping empty pieces. *)
Fixpoint splitAtSpaces (acc : jsstring) (s : jsstring) : list jsstring :=
  match s with
  | [] => if truthy acc then [rev acc] else []
  | u :: r =>
    if (u =? 32)%N
    then (if truthy acc then [rev acc] else []) ++ splitAtSpaces [] r
    else splitAtSpaces (u :: acc) r
  end.

(** English words, a cleaner that drops the characters [*], [#] and the
    backquote, a one-day lifetime as the specification gives it. *)
#[local] Instance sampleImports : Imports := {|
  toLowerCase := asciiToLowerCase;
  cleanMarkdownFromResponse :=
    filter (fun u => negb ((u =? 42) || (u =? 35) || (u =? 96))%N);
  AI_TRANSLATION_CACHE_TTL := 86400000;
  SVG_ICONS_SPEAKER := tpl "<svg class='speaker'/>";
  extractWords := splitAtSpaces [];
  interactiveWordEntry := fun w =>
    tpl "<span class='wxt-interactive-word'>" ++ w ++ tpl "</span>"
|}.

Definition sampleConfig (key : string) : ApiConfig :=
  {| apiKey := js key; apiEndpoint := js "https://api.example.test/v1";
     temperature := 0; customParams := [] |}.

Definition helloEntry : AITranslationEntry :=
  {| explain := js "interj. 你好；n. 打招呼"; source := js "ai-translation" |}.

Definition answer (s : string) : Settled :=
  Fulfilled {| callSuccess := true; content := Some (js s);
               callError := None |}.

Definition staleProvider (key : string) : AITranslationProvider :=
  {| apiConfig := sampleConfig key; timeout := 0;
     cache := [(js "hello",
                {| data := helloEntry; timestamp := 0; ttl := 86400000 |})];
     cacheTTL := 86400000 |}.

(** The tooltip of the word [hello] as the word view renders it while the
    meaning is still awaited. *)
Definition div (cls : string) (ch : list Node) : Node :=
  Element (js "div") [js cls] None ch.

Definition helloTooltip : Node :=
  div "wxt-tooltip" [
    div "wxt-tooltip-card" [
      div "wxt-tooltip-header" [
        div "wxt-word-info" [
          div "wxt-word-main" [TextNode (js "hello")];
          div "wxt-phonetic-row" [
            div "wxt-phonetic-loading" [TextNode (js "获取音标中...")]];
          div "wxt-meaning-container" [
            TextNode (js " ");
            div "wxt-meaning-loading" [TextNode (js "获取词义中...")];
            TextNode (js " ")]]];
      div "wxt-tooltip-arrow" []]].

Definition freshProvider : AITranslationProvider :=
  @newProvider sampleImports (sampleConfig "sk-test") 0.

(** [freshProvider] after a first answered call for [hello], entered at
    1000 and answered at 1200. *)
Definition helloProvider : AITranslationProvider :=
  fst (fst (@getMeaning sampleImports freshProvider 1000 1200
              (answer "interj. 你好；n. 打招呼") (JString (js "hello")))).

Definition repeatedCalls : list Call :=
  [ {| callEnter := 1300; callSettle := 1300; callReply := Rejected None;
       callWord := JString (js "hello") |};
    {| callEnter := 86401199; callSettle := 86401199;
       callReply := Rejected None; callWord := JString (js "hello") |} ].

Definition flaggedBackground : Background :=
  {| apiKeyNotificationShown := true; created := [] |}.

Definition keylessSettings : UserSettings :=
  {| apiConfigs := Some [ {| id := js "default-config";
                             config := Some (sampleConfig "") |} ];
     activeApiConfigId := js "default-config" |}.

Definition pageLoadRequest : ValidateRequest :=
  {| settingsRead := Some keylessSettings;
     requestSource := Some (js "page_load") |}.

Definition userActionRequest : ValidateRequest :=
  {| settingsRead := Some keylessSettings;
     requestSource := Some (js "user_action") |}.

(** The word [w<n>]. *)
Definition numberedWord (n : nat) : jsstring :=
  js ("w" ++ NilZero.string_of_uint (Nat.to_uint n)).

(** A blank word answered by the service, then five hundred further words,
    each answered as well. *)
Definition overflowCalls : list Call :=
  {| callEnter := 0; callSettle := 1; callReply := answer "n. blank";
     callWord := JString (js " ") |}
  :: map (fun n => {| callEnter := Z.of_nat n; callSettle := Z.of_nat n + 1;
                      callReply := answer "n. word";
                      callWord := JString (numberedWord n) |})
         (seq 1 500).

Definition overflowOps : list CacheOp :=
  OpSet 0 [] helloEntry
  :: map (fun n => OpSet (Z.of_nat n) (numberedWord n) helloEntry)
         (seq 1 500).

(** A cache filled to its capacity with the words [w1] to [w500], written
    at the times 1 to 500. *)
Definition fullCache : Cache :=
  runOps 86400000 (JsMap.empty CacheEntry)
    (map (fun n => OpSet (Z.of_nat n) (numberedWord n) helloEntry)
         (seq 1 500)).

Definition twoEntryCache : Cache :=
  [(js "apple", {| data := helloEntry; timestamp := 0; ttl := 86400000 |});
   (js "hello", {| data := helloEntry; timestamp := 5; ttl := 86400000 |})].

Definition blankResult : ApiCallResult :=
  {| callSuccess := true; content := Some (js "  "); callError := None |}.

Definition translatedHello : PronunciationElementData :=
  {| word := js "hello";
     phonetic := Some {| phonetics := []; aiTranslation := Some helloEntry;
                         phoneticError := None |} |}.

(** Phonetic data that carry a text and an error at once. *)
Definition textAndError : PhoneticInfo :=
  {| phonetics := [ {| text := Some (js "/leg/") |} ];
     aiTranslation := None;
     phoneticError :=
       Some {| hasPhoneticError := true;
               phoneticErrorMessage := Some (js "timeout") |} |}.

Definition errorWithoutMessage : PhoneticInfo :=
  {| phonetics := []; aiTranslation := None;
     phoneticError :=
       Some {| hasPhoneticError := true; phoneticErrorMessage := None |} |}.

Definition resolvedPhonetic : PhoneticInfo :=
  {| phonetics := [ {| text := Some (js "/leg/") |} ];
     aiTranslation := None; phoneticError := None |}.

Definition unreadableRequest : ValidateRequest :=
  {| settingsRead := None; requestSource := Some (js "page_load") |}.

Definition translatePageWithoutKey : CommandEvent :=
  {| command := js "translate-page";
     commandSettings := Some keylessSettings;
     activeTabs := Some [ {| tabId := Some 7 |} ] |}.




(** Five hundred and one answered calls for the words [w1] to [w501]. *)
Definition manyCalls : list Call :=
  map (fun n => {| callEnter := Z.of_nat n; callSettle := Z.of_nat n + 1;
                   callReply := answer "n. word";
                   callWord := JString (numberedWord n) |})
      (seq 1 501).

Definition storingCalls : list Call :=
  [ {| callEnter := 10; callSettle := 20; callReply := answer "n. 世界";
       callWord := JString (js "world") |};
    {| callEnter := 30; callSettle := 40; callReply := Rejected None;
       callWord := JString (js "apple") |};
    {| callEnter := 50; callSettle := 60; callReply := answer "interj. 你好";
       callWord := JString (js "hello") |} ].

Definition unflaggedBackground : Background :=
  {| apiKeyNotificationShown := false; created := [] |}.

Definition mixedRequests : list ValidateRequest :=
  [ userActionRequest; pageLoadRequest; unreadableRequest; pageLoadRequest;
    userActionRequest ].


(* ===================================================================== *)
(** * Properties of strings and of the insertion-ordered map *)
(* ===================================================================== *)

Lemma jsstring_eqb_eq (a b : jsstring) : jsstring_eqb a b = true <-> a = b.
Proof.
  revert b; induction a as [|x a IH]; intros [|y b]; simpl;
    try (split; [discriminate | discriminate]); try tauto.
  rewrite andb_true_iff, N.eqb_eq, IH.
  split; [intros [-> ->]; reflexivity | intros H; inversion H; auto].
Qed.

Lemma jsstring_eqb_refl (a : jsstring) : jsstring_eqb a a = true.
Proof. apply jsstring_eqb_eq; reflexivity. Qed.

Lemma jsstring_eqb_neq (a b : jsstring) : jsstring_eqb a b = false <-> a <> b.
Proof.
  rewrite <- jsstring_eqb_eq. destruct (jsstring_eqb a b); split; congruence.
Qed.

Lemma jsstring_eqb_sym (a b : jsstring) : jsstring_eqb a b = jsstring_eqb b a.
Proof.
  destruct (jsstring_eqb a b) eqn:E; symmetry.
  - apply jsstring_eqb_eq in E; subst; apply jsstring_eqb_refl.
  - apply jsstring_eqb_neq in E; apply jsstring_eqb_neq; congruence.
Qed.

Lemma trimStart_nil (s : jsstring) :
  trimStart s = [] <-> forallb isWhiteSpace s = true.
Proof.
  induction s as [|u r IH]; simpl; [tauto|].
  destruct (isWhiteSpace u); simpl; [exact IH | split; discriminate].
Qed.

Lemma trimStart_suffix (s : jsstring) :
  exists pre, s = pre ++ trimStart s /\ forallb isWhiteSpace pre = true.
Proof.
  induction s as [|u r [pre [E W]]]; simpl.
  - exists []; auto.
  - destruct (isWhiteSpace u) eqn:U.
    + exists (u :: pre); simpl; rewrite U, W.
      split; [f_equal; exact E | reflexivity].
    + exists []; auto.
Qed.

(** [trim] leaves nothing exactly when the string is empty or made of
    white space only. *)
Lemma trim_nil (s : jsstring) :
  trim s = [] <-> forallb isWhiteSpace s = true.
Proof.
  unfold trim, trimEnd. split.
  - intros H.
    assert (H1 : trimStart (rev (trimStart s)) = []).
    { destruct (trimStart (rev (trimStart s))) as [|x l]; [reflexivity|].
      simpl in H. destruct (rev l); discriminate. }
    apply trimStart_nil in H1. rewrite forallb_forall in H1.
    destruct (trimStart_suffix s) as [pre [E W]].
    rewrite E, forallb_app, W; simpl.
    apply forallb_forall; intros x Hx. apply H1, in_rev.
    rewrite rev_involutive; exact Hx.
  - intros H. apply trimStart_nil in H. rewrite H; reflexivity.
Qed.

Module JsMapFacts.
Import JsMap.
Section WithValue.
Context {V : Type}.
Implicit Types (m : JsMap.t V) (k : jsstring) (v : V).

Lemma get_set_same k v m : get k (set k v m) = Some v.
Proof.
  induction m as [|[k' v'] r IH]; simpl.
  - rewrite jsstring_eqb_refl; reflexivity.
  - destruct (jsstring_eqb k k') eqn:E; simpl; rewrite E; auto.
Qed.

Lemma get_set_other k k' v m :
  k <> k' -> get k' (set k v m) = get k' m.
Proof.
  intros N; induction m as [|[k0 v0] r IH]; simpl.
  - apply jsstring_eqb_neq in N. rewrite jsstring_eqb_sym, N; reflexivity.
  - destruct (jsstring_eqb k k0) eqn:E; simpl.
    + apply jsstring_eqb_eq in E; subst k0.
      assert (F : jsstring_eqb k' k = false)
        by (apply jsstring_eqb_neq; congruence).
      rewrite F; reflexivity.
    + rewrite IH; reflexivity.
Qed.

Lemma get_delete_same k m : get k (delete k m) = None.
Proof.
  induction m as [|[k' v'] r IH]; simpl; [reflexivity|].
  destruct (jsstring_eqb k k') eqn:E; simpl; [exact IH | rewrite E; exact IH].
Qed.

Lemma get_delete_other k k' m :
  k <> k' -> get k' (delete k m) = get k' m.
Proof.
  intros N; induction m as [|[k0 v0] r IH]; simpl; [reflexivity|].
  destruct (jsstring_eqb k k0) eqn:E; simpl.
  - apply jsstring_eqb_eq in E; subst k0.
    assert (F : jsstring_eqb k' k = false)
      by (apply jsstring_eqb_neq; congruence).
    rewrite F; exact IH.
  - rewrite IH; reflexivity.
Qed.

Lemma get_none_not_key k m : get k m = None <-> ~ In k (keys m).
Proof.
  induction m as [|[k' v'] r IH]; simpl; [tauto|].
  destruct (jsstring_eqb k k') eqn:E.
  - apply jsstring_eqb_eq in E; subst. split; [discriminate | tauto].
  - apply jsstring_eqb_neq in E. rewrite IH.
    split; [intros H [C|C]; auto | tauto].
Qed.

(** A key that is not in the map goes to the end. *)
Lemma set_absent k v m : get k m = None -> set k v m = m ++ [(k, v)].
Proof.
  induction m as [|[k' v'] r IH]; simpl; [reflexivity|].
  destruct (jsstring_eqb k k'); [discriminate | intros H; rewrite IH; auto].
Qed.

(** A key that is in the map keeps its place, and the size stays. *)
Lemma set_present_keys k v m : has k m = true -> keys (set k v m) = keys m.
Proof.
  unfold has. induction m as [|[k' v'] r IH]; simpl; [discriminate|].
  destruct (jsstring_eqb k k'); simpl;
    [reflexivity | intros H; rewrite IH; auto].
Qed.

Lemma delete_not_key k m : ~ In k (keys m) -> delete k m = m.
Proof.
  induction m as [|[k' v'] r IH]; simpl; [reflexivity|]. intros H.
  assert (E : jsstring_eqb k k' = false)
    by (apply jsstring_eqb_neq; intros ->; apply H; left; reflexivity).
  rewrite E; simpl. rewrite IH; tauto.
Qed.

Lemma delete_length k m : (List.length (delete k m) <= List.length m)%nat.
Proof. apply filter_length_le. Qed.

Lemma delete_key_shorter k m :
  In k (keys m) -> (List.length (delete k m) < List.length m)%nat.
Proof.
  unfold delete.
  induction m as [|[k' v'] r IH]; simpl; [tauto|].
  destruct (jsstring_eqb k k') eqn:E; simpl.
  - intros _.
    pose proof (filter_length_le (fun e => negb (jsstring_eqb k (fst e))) r).
    lia.
  - apply jsstring_eqb_neq in E. intros [C|C]; [congruence|].
    specialize (IH C). lia.
Qed.

Lemma keys_delete k m :
  keys (delete k m) = filter (fun x => negb (jsstring_eqb k x)) (keys m).
Proof.
  induction m as [|[k' v'] r IH]; simpl; [reflexivity|].
  destruct (jsstring_eqb k k'); simpl; rewrite IH; reflexivity.
Qed.

Lemma wf_delete k m : wf m -> wf (delete k m).
Proof. unfold wf. rewrite keys_delete. apply NoDup_filter. Qed.

Lemma wf_set k v m : wf m -> wf (set k v m).
Proof.
  unfold wf. destruct (get k m) eqn:G.
  - rewrite set_present_keys; [auto | unfold has; rewrite G; reflexivity].
  - rewrite set_absent by exact G. unfold keys. rewrite map_app; simpl.
    intros H. apply NoDup_app; [exact H | repeat constructor; simpl; tauto |].
    intros x Hx [<-|[]]. apply get_none_not_key in G. exact (G Hx).
Qed.

End WithValue.
End JsMapFacts.

(* ===================================================================== *)
(** * The translation cache *)
(* ===================================================================== *)

Section CacheFacts.
Import JsMap JsMapFacts.
Implicit Types (c : Cache) (w k : jsstring) (d : AITranslationEntry).

Lemma getFromCache_hit c now w e :
  get w c = Some e -> now - timestamp e < ttl e ->
  getFromCache c now w = (Some (data e), c).
Proof.
  intros G L. unfold getFromCache. rewrite G.
  apply Z.ltb_lt in L. rewrite L. reflexivity.
Qed.

Lemma getFromCache_expired c now w e :
  get w c = Some e -> timestamp e + ttl e <= now ->
  getFromCache c now w = (None, delete w c).
Proof.
  intros G L. unfold getFromCache. rewrite G.
  assert (F : (now - timestamp e <? ttl e) = false) by (apply Z.ltb_ge; lia).
  rewrite F. reflexivity.
Qed.

Lemma getFromCache_absent c now w :
  get w c = None -> getFromCache c now w = (None, c).
Proof. intros G. unfold getFromCache. rewrite G. reflexivity. Qed.

(** After a miss the key is not in the cache, however the miss came about. *)
Lemma getFromCache_miss c now w :
  fst (getFromCache c now w) = None ->
  get w (snd (getFromCache c now w)) = None.
Proof.
  unfold getFromCache. destruct (get w c) as [e|] eqn:G.
  - destruct (now - timestamp e <? ttl e); simpl; [discriminate|].
    intros _. apply get_delete_same.
  - simpl. auto.
Qed.

(** A read leaves the cache as it is or takes the key read out of it. *)
Lemma getFromCache_cache c now w :
  snd (getFromCache c now w) = c \/
  exists e, get w c = Some e /\ timestamp e + ttl e <= now /\
            snd (getFromCache c now w) = delete w c.
Proof.
  unfold getFromCache. destruct (get w c) as [e|] eqn:G; [|left; auto].
  destruct (now - timestamp e <? ttl e) eqn:L; [left; auto|].
  right. exists e. apply Z.ltb_ge in L. simpl. repeat split; auto; lia.
Qed.

(** [setCache] is the [set], possibly followed by one [delete]. *)
Lemma setCache_cases cacheTTL c now w d :
  let c1 := set w {| data := d; timestamp := now; ttl := cacheTTL |} c in
  setCache cacheTTL c now w d = c1 \/
  exists oldest, first_key c1 = Some oldest /\ 500 < size c1 /\
                 oldest <> [] /\ setCache cacheTTL c now w d = delete oldest c1.
Proof.
  intros c1. unfold setCache. fold c1.
  destruct (500 <? size c1) eqn:S; [|left; reflexivity].
  destruct (first_key c1) as [o|] eqn:F; [|left; reflexivity].
  destruct o as [|u o]; [left; reflexivity|].
  right. exists (u :: o). apply Z.ltb_lt in S. simpl.
  repeat split; auto; discriminate.
Qed.

Lemma setCache_lookup cacheTTL c now w d k :
  get k (setCache cacheTTL c now w d)
  = get k (set w {| data := d; timestamp := now; ttl := cacheTTL |} c)
  \/ get k (setCache cacheTTL c now w d) = None.
Proof.
  destruct (setCache_cases cacheTTL c now w d) as [E|[o [_ [_ [_ E]]]]];
    rewrite E; [left; reflexivity|].
  destruct (jsstring_eqb o k) eqn:K.
  - apply jsstring_eqb_eq in K; subst. right. apply get_delete_same.
  - apply jsstring_eqb_neq in K. left. apply get_delete_other; exact K.
Qed.

(** A key that was not in the cache is there after its own [setCache]:
    the eviction takes the head, and the new key stands at the end. *)
Lemma setCache_fresh cacheTTL c now w d :
  get w c = None ->
  get w (setCache cacheTTL c now w d)
  = Some {| data := d; timestamp := now; ttl := cacheTTL |}.
Proof.
  intros G.
  destruct (setCache_cases cacheTTL c now w d) as [E|[o [F [S [_ E]]]]];
    rewrite E; [apply get_set_same|].
  rewrite get_delete_other; [apply get_set_same|].
  rewrite set_absent in F by exact G.
  destruct c as [|[k0 e0] r]; simpl in *.
  - unfold size in S; simpl in S; lia.
  - unfold first_key in F; simpl in F. inversion F; subst o.
    destruct (jsstring_eqb w k0) eqn:K; [discriminate|].
    apply jsstring_eqb_neq in K. congruence.
Qed.

Lemma set_length (e : CacheEntry) w c :
  (List.length (set w e c) <= S (List.length c))%nat.
Proof.
  induction c as [|[k0 e0] r IH]; simpl; [lia|].
  destruct (jsstring_eqb w k0); simpl; lia.
Qed.

Lemma set_keys_incl (e : CacheEntry) w c k :
  In k (keys (set w e c)) -> k = w \/ In k (keys c).
Proof.
  induction c as [|[k0 e0] r IH]; simpl; [intuition|].
  destruct (jsstring_eqb w k0); simpl; intuition.
Qed.

Lemma delete_keys_incl (k0 k : jsstring) c :
  In k (keys (delete k0 c)) -> In k (keys c).
Proof.
  rewrite (keys_delete k0 c). intros H. apply filter_In in H. tauto.
Qed.

Lemma first_key_in c k : first_key c = Some k -> In k (keys c).
Proof.
  unfold first_key. destruct (keys c); [discriminate|].
  intros H; inversion H; left; reflexivity.
Qed.

(** With no empty key in sight the bound of 500 entries is kept. *)
Lemma setCache_bound cacheTTL c now w d :
  (forall k, In k (keys c) -> k <> []) -> w <> [] -> size c <= 500 ->
  size (setCache cacheTTL c now w d) <= 500 /\
  (forall k, In k (keys (setCache cacheTTL c now w d)) -> k <> []).
Proof.
  intros NE W S.
  set (e := {| data := d; timestamp := now; ttl := cacheTTL |}).
  assert (NE1 : forall k, In k (keys (set w e c)) -> k <> []).
  { intros k Hk. destruct (set_keys_incl e w c k Hk); subst; auto. }
  pose proof (set_length e w c) as L.
  unfold setCache. fold e.
  destruct (500 <? size (set w e c)) eqn:B.
  - destruct (first_key (set w e c)) as [o|] eqn:F.
    + pose proof (first_key_in _ _ F) as Ho.
      destruct o as [|u o]; [exfalso; exact (NE1 [] Ho eq_refl)|]. simpl.
      pose proof (delete_key_shorter (u :: o) (set w e c) Ho) as D.
      split; [unfold size in *; lia|].
      intros k Hk. apply NE1. eapply delete_keys_incl; exact Hk.
    + unfold first_key in F. destruct (set w e c) as [|[k0 e0] r] eqn:E;
        [|discriminate]. unfold size in B; simpl in B.
      apply Z.ltb_lt in B. lia.
  - apply Z.ltb_ge in B. split; auto.
Qed.

(** The eviction at the 501st key takes out the entry at the head of the
    insertion order, and nothing else. *)
Lemma setCache_evicts_oldest cacheTTL k0 e0 (r : Cache) now w d :
  wf ((k0, e0) :: r) -> size ((k0, e0) :: r) = 500 ->
  get w ((k0, e0) :: r) = None -> k0 <> [] ->
  setCache cacheTTL ((k0, e0) :: r) now w d
  = r ++ [(w, {| data := d; timestamp := now; ttl := cacheTTL |})].
Proof.
  intros WF S G K.
  set (e := {| data := d; timestamp := now; ttl := cacheTTL |}).
  unfold setCache. fold e. rewrite set_absent by exact G.
  assert (B : (500 <? size (((k0, e0) :: r) ++ [(w, e)])) = true).
  { apply Z.ltb_lt. unfold size in *. rewrite length_app. simpl in *. lia. }
  rewrite B. unfold first_key. simpl.
  destruct k0 as [|u k0]; [congruence|]. simpl truthy. cbv iota.
  unfold delete at 1. simpl filter. rewrite jsstring_eqb_refl. simpl.
  change (filter (fun x => negb (jsstring_eqb (u :: k0) (fst x)))
            (r ++ [(w, e)]))
    with (delete (u :: k0) (r ++ [(w, e)])).
  apply delete_not_key.
  unfold keys. rewrite map_app. simpl. intros H. apply in_app_or in H.
  inversion WF; subst. destruct H as [H|[H|[]]]; [contradiction|].
  simpl in G. subst w. rewrite jsstring_eqb_refl in G. discriminate.
Qed.

Lemma applyOp_bound cacheTTL c op :
  (forall k, In k (keys c) -> k <> []) ->
  (forall now w d, op = OpSet now w d -> w <> []) ->
  size c <= 500 ->
  size (applyOp cacheTTL c op) <= 500 /\
  (forall k, In k (keys (applyOp cacheTTL c op)) -> k <> []).
Proof.
  intros NE W S. destruct op as [now w|now w d]; simpl.
  - destruct (getFromCache_cache c now w) as [E|[e [_ [_ E]]]]; rewrite E.
    + auto.
    + split.
      * pose proof (delete_length w c). unfold size in *. lia.
      * intros k Hk. apply NE. eapply delete_keys_incl; exact Hk.
  - apply setCache_bound; auto. eapply W; reflexivity.
Qed.

(** Over any run of reads and writes whose written keys are not empty, the
    cache never holds more than 500 entries. *)
Lemma runOps_bound cacheTTL ops : forall c,
  (forall k, In k (keys c) -> k <> []) ->
  Forall (fun op => forall now w d, op = OpSet now w d -> w <> []) ops ->
  size c <= 500 ->
  size (runOps cacheTTL c ops) <= 500.
Proof.
  induction ops as [|op ops IH]; intros c NE W S; simpl; [exact S|].
  inversion W as [|? ? Hop Hops]; subst.
  destruct (applyOp_bound cacheTTL c op NE Hop S) as [S' NE'].
  apply IH; auto.
Qed.

End CacheFacts.

(** C1.  The specification says that after every [set] the cache holds at
    most 500 entries, the 501st distinct key evicting the earliest-inserted
    one.  Evaluated on the code: once the empty key stands at the head of the
    insertion order (the cleaned form of a blank word), [setCache] reads it
    as no key at all and evicts nothing.  After that key and 500 further
    distinct keys the cache holds 501 entries, the empty key still first;
    the same happens through [getMeaning] called with a blank word and
    then 500 other words. *)
Theorem C1_empty_key_is_never_evicted :
  JsMap.size (runOps 86400000 (JsMap.empty CacheEntry) overflowOps) = 501 /\
  JsMap.first_key (runOps 86400000 (JsMap.empty CacheEntry) overflowOps)
  = Some [] /\
  (let '(p, results, sent) :=
     getMeanings (newProvider (sampleConfig "sk-test") 0) overflowCalls in
   forallb success results = true /\
   JsMap.size (cache p) = 501 /\
   JsMap.first_key (cache p) = Some []).
Proof. vm_compute. repeat split; reflexivity. Qed.

Section CacheClaims.
Import JsMap JsMapFacts.

Lemma applyOp_keeps cacheTTL (c : Cache) w e op :
  setsKey w op = false ->
  get w c = Some e \/ get w c = None ->
  get w (applyOp cacheTTL c op) = Some e
  \/ get w (applyOp cacheTTL c op) = None.
Proof.
  intros N G. destruct op as [now k|now k d]; simpl in *.
  - destruct (getFromCache_cache c now k) as [E|[e' [_ [_ E]]]]; rewrite E;
      [exact G|].
    destruct (jsstring_eqb k w) eqn:K.
    + apply jsstring_eqb_eq in K; subst. right. apply get_delete_same.
    + apply jsstring_eqb_neq in K. rewrite get_delete_other by exact K.
      exact G.
  - apply jsstring_eqb_neq in N.
    destruct (setCache_lookup cacheTTL c now k d w) as [E|E]; rewrite E;
      [|right; reflexivity].
    rewrite get_set_other by exact N. exact G.
Qed.

Lemma runOps_keeps cacheTTL w e ops : forall c : Cache,
  forallb (fun op => negb (setsKey w op)) ops = true ->
  get w c = Some e \/ get w c = None ->
  get w (runOps cacheTTL c ops) = Some e
  \/ get w (runOps cacheTTL c ops) = None.
Proof.
  induction ops as [|op ops IH]; intros c N G; simpl in *; [exact G|].
  apply andb_true_iff in N. destruct N as [N1 N2].
  apply IH; [exact N2|]. apply applyOp_keeps; [|exact G].
  destruct (setsKey w op); [discriminate | reflexivity].
Qed.

(** C2.  A value stored under [w] by [setCache] at time [t0] is what
    [getFromCache] returns for [w] at any time [t1] less than the lifetime
    after [t0], the stored value unchanged and the cache untouched by the
    read: whatever reads and writes of other keys came in between, as long
    as [w] is still in the cache (it was neither evicted nor dropped). *)
Theorem C2_get_returns_stored_value cacheTTL (c : Cache) t0 w v ops t1 :
  forallb (fun op => negb (setsKey w op)) ops = true ->
  has w (runOps cacheTTL (setCache cacheTTL c t0 w v) ops) = true ->
  t1 - t0 < cacheTTL ->
  getFromCache (runOps cacheTTL (setCache cacheTTL c t0 w v) ops) t1 w
  = (Some v, runOps cacheTTL (setCache cacheTTL c t0 w v) ops).
Proof.
  intros N P L.
  set (e := {| data := v; timestamp := t0; ttl := cacheTTL |}).
  assert (G0 : get w (setCache cacheTTL c t0 w v) = Some e
               \/ get w (setCache cacheTTL c t0 w v) = None).
  { destruct (setCache_lookup cacheTTL c t0 w v w) as [E|E]; rewrite E;
      [left; apply get_set_same | right; reflexivity]. }
  destruct (runOps_keeps cacheTTL w e ops _ N G0) as [G|G].
  - exact (getFromCache_hit _ t1 w e G L).
  - unfold has in P. rewrite G in P. discriminate.
Qed.

End CacheClaims.

Lemma C2_get_returns_stored_value_witness :
  getFromCache
    (runOps 86400000
       (setCache 86400000 (JsMap.empty CacheEntry) 1000 (js "hello") helloEntry)
       [OpSet 2000 (js "world") helloEntry; OpGet 3000 (js "world")])
    86400999 (js "hello")
  = (Some helloEntry,
     runOps 86400000
       (setCache 86400000 (JsMap.empty CacheEntry) 1000 (js "hello") helloEntry)
       [OpSet 2000 (js "world") helloEntry; OpGet 3000 (js "world")]).
Proof.
  apply (C2_get_returns_stored_value 86400000 (JsMap.empty CacheEntry) 1000
           (js "hello") helloEntry
           [OpSet 2000 (js "world") helloEntry; OpGet 3000 (js "world")]
           86400999).
  - vm_compute; reflexivity.
  - vm_compute; reflexivity.
  - lia.
Defined.

(* ===================================================================== *)
(** * The provider *)
(* ===================================================================== *)

Section ProviderClaims.
Context {I : Imports}.
Import JsMap JsMapFacts.

Lemma withCache_same p : withCache p (cache p) = p.
Proof. destruct p; reflexivity. Qed.

(** What [getMeaning] does with a non-empty string before it suspends. *)
Lemma getMeaning_enter_string p now s :
  truthy s = true ->
  getMeaning_enter p now (JString s)
  = let w := trim (toLowerCase s) in
    let p1 := withCache p (snd (getFromCache (cache p) now w)) in
    match fst (getFromCache (cache p) now w) with
    | Some d => (p1, Resolved (succeeded d true))
    | None =>
      if truthy (apiKey (apiConfig p))
      then (p1, Awaiting w (callOptions p1))
      else (p1, Resolved (failed missingKeyMessage))
    end.
Proof.
  intros T. unfold getMeaning_enter. rewrite T. simpl.
  destruct (getFromCache (cache p) now (trim (toLowerCase s))) as [[d|] c1];
    simpl; [reflexivity|].
  destruct (truthy (apiKey (apiConfig p))); reflexivity.
Qed.

Lemma getMeaning_enter_invalid p now word :
  (forall s, word = JString s -> truthy s = false) ->
  getMeaning_enter p now word = (p, Resolved (failed invalidWordMessage)).
Proof.
  intros H. destruct word as [| |s|]; simpl; try reflexivity.
  rewrite (H s eq_refl). reflexivity.
Qed.

(** A call that suspends never resumes into a cache hit. *)
Lemma getMeaning_settle_result p now w reply :
  (success (snd (getMeaning_settle p now w reply)) = false /\
   fst (getMeaning_settle p now w reply) = p) \/
  (exists result,
     reply = Fulfilled result /\ callSuccess result = true /\
     getMeaning_settle p now w reply
     = (withCache p (setCache (cacheTTL p) (cache p) now w
                       (parseAIResponse (content result) w)),
        succeeded (parseAIResponse (content result) w) false)).
Proof.
  destruct reply as [result|[m|]]; simpl; [|left; auto|left; auto].
  destruct (callSuccess result) eqn:S; simpl; [|left; auto].
  right. exists result. auto.
Qed.

(** C3, with the API-key check taken into account.  When the entry of
    the cleaned word [w] has expired
    ([createdAt + ttl <= now]), [getFromCache] returns [null] and takes the
    entry out of the cache.  A later [getMeaning] for the word then finds
    nothing in the cache and goes on to the API-key check: with a key
    configured it sends one request for [w] to the AI service, with no key
    it returns the missing-key failure and sends nothing. *)
Theorem C3_expired_entry_is_removed_then_missed p now s e :
  truthy s = true ->
  get (trim (toLowerCase s)) (cache p) = Some e ->
  timestamp e + ttl e <= now ->
  let w := trim (toLowerCase s) in
  let p' := withCache p (delete w (cache p)) in
  getFromCache (cache p) now w = (None, delete w (cache p)) /\
  get w (cache p') = None /\
  forall later tSettle reply,
    fst (getFromCache (cache p') later w) = None /\
    (truthy (apiKey (apiConfig p)) = true ->
     getMeaning_enter p' later (JString s)
     = (p', Awaiting w (callOptions p')) /\
     snd (getMeaning p' later tSettle reply (JString s))
     = [(w, callOptions p')]) /\
    (truthy (apiKey (apiConfig p)) = false ->
     getMeaning p' later tSettle reply (JString s)
     = (p', failed missingKeyMessage, [])).
Proof.
  intros T G X w p'.
  assert (G' : get w (cache p') = None) by apply get_delete_same.
  split; [exact (getFromCache_expired _ now w e G X)|].
  split; [exact G'|].
  intros later tSettle reply.
  pose proof (getFromCache_absent (cache p') later w G') as A.
  assert (E : forall k,
             truthy (apiKey (apiConfig p)) = k ->
             getMeaning_enter p' later (JString s)
             = if k then (p', Awaiting w (callOptions p'))
               else (p', Resolved (failed missingKeyMessage))).
  { intros k K. rewrite (getMeaning_enter_string p' later s T).
    cbv zeta. fold w. rewrite A. simpl. rewrite K.
    change (withCache p' (delete w (cache p))) with (withCache p' (cache p')).
    rewrite withCache_same. reflexivity. }
  split; [rewrite A; reflexivity|]. split; intros K.
  - split; [exact (E true K)|].
    unfold getMeaning. rewrite (E true K).
    destruct (getMeaning_settle p' tSettle w reply); reflexivity.
  - unfold getMeaning. rewrite (E false K). reflexivity.
Qed.

End ProviderClaims.

Lemma C3_expired_entry_is_removed_then_missed_witness :
  getFromCache (cache (staleProvider "sk-test")) 86400000 (js "hello")
  = (None, []) /\
  snd (getMeaning (withCache (staleProvider "sk-test") []) 86400001 86400002
         (answer "interj. hello") (JString (js "Hello ")))
  = [(js "hello", callOptions (withCache (staleProvider "sk-test") []))].
Proof.
  destruct (@C3_expired_entry_is_removed_then_missed sampleImports
              (staleProvider "sk-test") 86400000 (js "Hello ")
              {| data := helloEntry; timestamp := 0; ttl := 86400000 |})
    as [H1 [_ H3]].
  - reflexivity.
  - reflexivity.
  - simpl; lia.
  - split; [exact H1|].
    destruct (H3 86400001 86400002 (answer "interj. hello")) as [_ [H4 _]].
    exact (proj2 (H4 eq_refl)).
Defined.

(** C3, the case the written specification leaves out: the entry of
    [hello] has expired and [getFromCache] has removed it, yet with no API
    key configured the next [getMeaning] for the word sends no request at
    all, where the specification promises a fresh network call. *)
Lemma C3_no_request_without_key :
  timestamp {| data := helloEntry; timestamp := 0; ttl := 86400000 |}
  + ttl {| data := helloEntry; timestamp := 0; ttl := 86400000 |}
  <= 86400000 /\
  JsMap.get (js "hello") (cache (staleProvider ""))
  = Some {| data := helloEntry; timestamp := 0; ttl := 86400000 |} /\
  getFromCache (cache (staleProvider "")) 86400000 (js "hello")
  = (None, []) /\
  @getMeaning sampleImports (withCache (staleProvider "") []) 86400001
    86400002 (answer "interj. 你好") (JString (js "hello"))
  = (withCache (staleProvider "") [], failed missingKeyMessage, []).
Proof.
  split; [simpl; lia|]. repeat split; vm_compute; reflexivity.
Qed.

Section CacheHits.
Context {I : Imports}.
Import JsMap JsMapFacts.

(** A call answered from a live entry: nothing is sent, the provider is as
    before. *)
Lemma getMeaning_hit p now tSettle reply s e :
  truthy s = true ->
  get (trim (toLowerCase s)) (cache p) = Some e ->
  now - timestamp e < ttl e ->
  getMeaning p now tSettle reply (JString s) = (p, succeeded (data e) true, []).
Proof.
  intros T G L. unfold getMeaning.
  rewrite (getMeaning_enter_string p now s T). cbv zeta.
  rewrite (getFromCache_hit _ now _ e G L). simpl.
  rewrite withCache_same. reflexivity.
Qed.

(** A first call that came back with [cached = false] left its payload in
    the cache under the cleaned word, stamped with the time of the reply. *)
Lemma getMeaning_stores p tEnter tSettle reply word p1 r1 sent1 :
  getMeaning p tEnter tSettle reply word = (p1, r1, sent1) ->
  success r1 = true -> cached r1 = Some false ->
  exists s d,
    word = JString s /\ truthy s = true /\
    r1 = succeeded d false /\
    sent1 = [(trim (toLowerCase s),
              callOptions (withCache p
                 (snd (getFromCache (cache p) tEnter (trim (toLowerCase s))))))] /\
    cacheTTL p1 = cacheTTL p /\
    get (trim (toLowerCase s)) (cache p1)
    = Some {| data := d; timestamp := tSettle; ttl := cacheTTL p |}.
Proof.
  intros E S C. unfold getMeaning in E.
  destruct word as [| |s|]; try (simpl in E; inversion E; subst; discriminate).
  destruct (truthy s) eqn:T;
    [|simpl in E; rewrite T in E; simpl in E; inversion E; subst; discriminate].
  rewrite (getMeaning_enter_string p tEnter s T) in E. cbv zeta in E.
  set (w := trim (toLowerCase s)) in *.
  pose proof (getFromCache_miss (cache p) tEnter w) as M.
  destruct (fst (getFromCache (cache p) tEnter w)) as [d0|].
  { inversion E; subst. discriminate. }
  specialize (M eq_refl).
  destruct (truthy (apiKey (apiConfig p)));
    [|inversion E; subst; discriminate].
  set (p0 := withCache p (snd (getFromCache (cache p) tEnter w))) in *.
  destruct (getMeaning_settle_result p0 tSettle w reply)
    as [[F _]|[result [_ [_ R]]]].
  - destruct (getMeaning_settle p0 tSettle w reply) as [p2 r2].
    inversion E; subst. simpl in F. congruence.
  - rewrite R in E. inversion E; subst.
    exists s, (parseAIResponse (content result) w).
    repeat split; auto. simpl.
    apply setCache_fresh. exact M.
Qed.

(** The cache is written only when a reply arrives: two calls for a word
    that both enter before either is answered each send a request. *)
Remark overlapping_calls_both_send p t1 t2 s :
  truthy s = true ->
  get (trim (toLowerCase s)) (cache p) = None ->
  truthy (apiKey (apiConfig p)) = true ->
  getMeaning_enter p t1 (JString s)
  = (p, Awaiting (trim (toLowerCase s)) (callOptions p)) /\
  getMeaning_enter (fst (getMeaning_enter p t1 (JString s))) t2 (JString s)
  = (p, Awaiting (trim (toLowerCase s)) (callOptions p)).
Proof.
  intros T G K.
  assert (E : forall t, getMeaning_enter p t (JString s)
                        = (p, Awaiting (trim (toLowerCase s)) (callOptions p))).
  { intros t. rewrite (getMeaning_enter_string p t s T). cbv zeta.
    rewrite (getFromCache_absent _ t _ G). simpl. rewrite K.
    rewrite withCache_same. reflexivity. }
  rewrite (E t1). cbn [fst]. rewrite (E t2). auto.
Qed.













(** C5.  The cache is read before the API key is looked at.  For a valid
    word (a non-empty string) that misses the cache, a provider with no API
    key returns the missing-key failure and sends nothing; for one that
    hits the cache the call succeeds with [cached = true] and sends
    nothing, whatever the key. *)
Theorem C5_cache_before_key_check p now tSettle reply s :
  truthy s = true ->
  let w := trim (toLowerCase s) in
  (fst (getFromCache (cache p) now w) = None ->
   truthy (apiKey (apiConfig p)) = false ->
   getMeaning p now tSettle reply (JString s)
   = (withCache p (snd (getFromCache (cache p) now w)),
      failed missingKeyMessage, [])) /\
  (forall d,
     fst (getFromCache (cache p) now w) = Some d ->
     getMeaning p now tSettle reply (JString s) = (p, succeeded d true, [])).
Proof.
  intros T w. unfold getMeaning.
  rewrite (getMeaning_enter_string p now s T). cbv zeta. fold w. split.
  - intros M K. rewrite M, K. reflexivity.
  - intros d H. rewrite H.
    assert (C : snd (getFromCache (cache p) now w) = cache p).
    { unfold getFromCache in *. destruct (get w (cache p)) as [e|];
        [|reflexivity].
      destruct (now - timestamp e <? ttl e); [reflexivity | discriminate]. }
    rewrite C, withCache_same. reflexivity.
Qed.

End CacheHits.



Lemma C5_cache_before_key_check_witness :
  @getMeaning sampleImports (newProvider (sampleConfig "") 0) 5 6
    (answer "n. word") (JString (js "hello"))
  = (newProvider (sampleConfig "") 0, failed missingKeyMessage, []) /\
  @getMeaning sampleImports (staleProvider "") 5 6
    (answer "n. word") (JString (js "hello"))
  = (staleProvider "", succeeded helloEntry true, []).
Proof.
  split.
  - exact (proj1 (@C5_cache_before_key_check sampleImports
                    (newProvider (sampleConfig "") 0) 5 6 (answer "n. word")
                    (js "hello") eq_refl) eq_refl eq_refl).
  - exact (proj2 (@C5_cache_before_key_check sampleImports
                    (staleProvider "") 5 6 (answer "n. word")
                    (js "hello") eq_refl) helloEntry eq_refl).
Defined.

Section Responses.
Context {I : Imports}.
Import JsMap JsMapFacts.

Lemma truthy_trim (c : jsstring) :
  truthy (trim c) = negb (forallb isWhiteSpace c).
Proof.
  destruct (forallb isWhiteSpace c) eqn:W.
  - apply trim_nil in W. rewrite W. reflexivity.
  - destruct (trim c) eqn:E; [|reflexivity].
    apply trim_nil in E. congruence.
Qed.

(** C6.  For a successful reply the explanation that is returned and
    stored is the trimmed content with the markdown cleaned away, cut to
    its first 200 code units followed by [...] when it is longer than 200;
    a content that is missing, empty or white space only gives the
    placeholder made of the word and [ 的释义暂不可用]; the source tag is
    [ai-translation] in every case. *)
Theorem C6_stored_explanation (content_ : option jsstring) (w : jsstring) :
  source (parseAIResponse content_ w) = js "ai-translation" /\
  (forall c,
     content_ = Some c -> forallb isWhiteSpace c = false ->
     let stripped := cleanMarkdownFromResponse (trim c) in
     ((200 < List.length stripped)%nat ->
      explain (parseAIResponse content_ w)
      = firstn 200 stripped ++ js "..." /\
      List.length (explain (parseAIResponse content_ w)) = 203%nat) /\
     ((List.length stripped <= 200)%nat ->
      explain (parseAIResponse content_ w) = stripped)) /\
  (content_ = None \/
   (exists c, content_ = Some c /\ forallb isWhiteSpace c = true) ->
   explain (parseAIResponse content_ w) = w ++ js " 的释义暂不可用") /\
  (forall p now result,
     callSuccess result = true -> content result = content_ ->
     getMeaning_settle p now w (Fulfilled result)
     = (withCache p (setCache (cacheTTL p) (cache p) now w
                       (parseAIResponse content_ w)),
        succeeded (parseAIResponse content_ w) false)).
Proof.
  split; [reflexivity|]. split; [|split].
  - intros c -> W stripped. unfold parseAIResponse, or_else.
    assert (T : truthy (trim c) = true)
      by (rewrite truthy_trim, W; reflexivity).
    rewrite T. cbn [negb]. rewrite T. cbn [negb explain]. fold stripped.
    split; intros L.
    + apply Nat.ltb_lt in L. rewrite L. split; [reflexivity|].
      apply Nat.ltb_lt in L. unfold substring0.
      rewrite length_app, length_firstn.
      change (List.length (js "...")) with 3%nat. lia.
    + apply Nat.ltb_ge in L. rewrite L. reflexivity.
  - intros [->|[c [-> W]]]; [reflexivity|].
    unfold parseAIResponse, or_else.
    assert (T : truthy (trim c) = false)
      by (rewrite truthy_trim, W; reflexivity).
    rewrite T. reflexivity.
  - intros p now result S <-. simpl. rewrite S. reflexivity.
Qed.

(** C10.  A call that returns a failure leaves the provider as it was, but
    for one thing: when the entry of the queried word had expired, the
    cache has lost exactly that entry.  In particular every entry found in
    the cache afterwards was there before. *)
Theorem C10_failed_call_inserts_nothing p tEnter tSettle reply word p' r sent :
  getMeaning p tEnter tSettle reply word = (p', r, sent) ->
  success r = false ->
  apiConfig p' = apiConfig p /\ timeout p' = timeout p /\
  cacheTTL p' = cacheTTL p /\
  (cache p' = cache p \/
   exists s e,
     word = JString s /\ truthy s = true /\
     get (trim (toLowerCase s)) (cache p) = Some e /\
     timestamp e + ttl e <= tEnter /\
     cache p' = delete (trim (toLowerCase s)) (cache p)) /\
  (forall k x, get k (cache p') = Some x -> get k (cache p) = Some x).
Proof.
  intros E F.
  assert (H : apiConfig p' = apiConfig p /\ timeout p' = timeout p /\
              cacheTTL p' = cacheTTL p /\
              (cache p' = cache p \/
               exists s e,
                 word = JString s /\ truthy s = true /\
                 get (trim (toLowerCase s)) (cache p) = Some e /\
                 timestamp e + ttl e <= tEnter /\
                 cache p' = delete (trim (toLowerCase s)) (cache p))).
  { unfold getMeaning in E.
    destruct word as [| |s|];
      try solve [simpl in E; inversion E; subst; repeat split; auto].
    destruct (truthy s) eqn:T;
      [|simpl in E; rewrite T in E; simpl in E; inversion E; subst;
        solve [repeat split; auto]].
    rewrite (getMeaning_enter_string p tEnter s T) in E. cbv zeta in E.
    set (w := trim (toLowerCase s)) in *.
    set (p0 := withCache p (snd (getFromCache (cache p) tEnter w))) in *.
    assert (P0 : p' = p0).
    { destruct (fst (getFromCache (cache p) tEnter w)) as [d0|].
      - inversion E; reflexivity.
      - destruct (truthy (apiKey (apiConfig p))); [|inversion E; reflexivity].
        destruct (getMeaning_settle_result p0 tSettle w reply)
          as [[_ Q]|[result [_ [_ R]]]].
        + destruct (getMeaning_settle p0 tSettle w reply) as [p2 r2].
          inversion E; subst. exact Q.
        + rewrite R in E. inversion E; subst. discriminate F. }
    subst p'. unfold p0. simpl. repeat split; auto.
    destruct (getFromCache_cache (cache p) tEnter w) as [C|[e [G [X C]]]];
      rewrite C; [left; reflexivity|].
    right. exists s, e. auto. }
  destruct H as [H1 [H2 [H3 H4]]]. repeat split; auto.
  intros k x G. destruct H4 as [C|[s [e [_ [_ [_ [_ C]]]]]]]; rewrite C in G;
    [exact G|].
  destruct (jsstring_eqb (trim (toLowerCase s)) k) eqn:K.
  - apply jsstring_eqb_eq in K. subst k. rewrite get_delete_same in G.
    discriminate.
  - apply jsstring_eqb_neq in K. rewrite get_delete_other in G by exact K.
    exact G.
Qed.

End Responses.

Lemma C6_stored_explanation_witness :
  explain (@parseAIResponse sampleImports (Some (js " **adj.** 美丽的 "))
             (js "beautiful"))
  = js "adj. 美丽的" /\
  explain (@parseAIResponse sampleImports (Some (js "  ")) (js "beautiful"))
  = js "beautiful" ++ js " 的释义暂不可用".
Proof.
  split.
  - etransitivity.
    + refine (proj2 (proj1 (proj2 (@C6_stored_explanation sampleImports
                (Some (js " **adj.** 美丽的 ")) (js "beautiful")))
                (js " **adj.** 美丽的 ") eq_refl _) _).
      * vm_compute. reflexivity.
      * vm_compute. lia.
    + vm_compute. reflexivity.
  - refine (proj1 (proj2 (proj2 (@C6_stored_explanation sampleImports
              (Some (js "  ")) (js "beautiful")))) _).
    right. exists (js "  "). split; vm_compute; reflexivity.
Defined.

Lemma C10_failed_call_inserts_nothing_witness :
  cache (withCache (staleProvider "") []) = cache (staleProvider "") \/
  exists s e,
    JString (js "hello") = JString s /\ truthy s = true /\
    JsMap.get (trim (@toLowerCase sampleImports s)) (cache (staleProvider ""))
    = Some e /\
    timestamp e + ttl e <= 86400000 /\
    cache (withCache (staleProvider "") [])
    = JsMap.delete (trim (@toLowerCase sampleImports s))
        (cache (staleProvider "")).
Proof.
  exact (proj1 (proj2 (proj2 (proj2
    (@C10_failed_call_inserts_nothing sampleImports
       (staleProvider "") 86400000 86400001 (Rejected None)
       (JString (js "hello"))
       (withCache (staleProvider "") [])
       (failed missingKeyMessage) [] eq_refl eq_refl))))).
Defined.

(* ===================================================================== *)
(** * The markup of the main tooltip *)
(* ===================================================================== *)

Section RendererClaims.
Context {I : Imports}.

Lemma contains_app_r (frag a b : jsstring) :
  contains frag b -> contains frag (a ++ b).
Proof.
  intros [pre [post ->]]. exists (a ++ pre), post.
  rewrite <- app_assoc. reflexivity.
Qed.

Lemma contains_between_more (x y z rest opening closing : jsstring) :
  (exists a, x = a ++ opening) -> (exists c, z = closing ++ c) ->
  contains (opening ++ y ++ closing) (x ++ y ++ z ++ rest).
Proof.
  intros [a ->] [c ->]. exists a, (c ++ rest).
  repeat rewrite <- app_assoc. reflexivity.
Qed.

Lemma contains_between (x y z opening closing : jsstring) :
  (exists a, x = a ++ opening) -> (exists c, z = closing ++ c) ->
  contains (opening ++ y ++ closing) (x ++ y ++ z).
Proof.
  intros [a ->] [c ->]. exists a, c.
  repeat rewrite <- app_assoc. reflexivity.
Qed.

(** C7.  [createMainTooltipHTML] looks at the number of tokens of the
    text.  With more than one token the result is the phrase view, which
    holds the interactive word list, one entry per token in the order of
    the tokens.  Otherwise the result is the word view, and when no
    translation is attached its meaning block holds the loading
    placeholder. *)
Theorem C7_main_tooltip_by_token_count uiConfig elementData :
  let words := extractWords (word elementData) in
  ((1 < List.length words)%nat ->
   createMainTooltipHTML uiConfig elementData
   = createPhraseTooltipHTML uiConfig (word elementData) words /\
   contains (tpl "<div class='wxt-phrase-words'>"
             ++ List.concat (map interactiveWordEntry words) ++ tpl "</div>")
            (createMainTooltipHTML uiConfig elementData) /\
   List.length (map interactiveWordEntry words) = List.length words) /\
  ((List.length words <= 1)%nat ->
   (forall info, phonetic elementData = Some info ->
                 aiTranslation info = None) ->
   createMainTooltipHTML uiConfig elementData
   = createWordTooltipHTML uiConfig elementData /\
   contains (meaningBlock meaningLoadingMarkup)
            (createMainTooltipHTML uiConfig elementData)).
Proof.
  intros words. unfold createMainTooltipHTML. fold words. split.
  - intros L. apply Nat.ltb_lt in L. rewrite L.
    split; [reflexivity|]. split; [|apply length_map].
    unfold createPhraseTooltipHTML, createInteractiveWordList.
    do 4 apply contains_app_r. apply contains_between.
    + exists (tpl "
        </div>
        <div class='wxt-tooltip-body'>
          "). vm_compute. reflexivity.
    + exists (tpl "
        </div>
        <div class='wxt-tooltip-arrow'></div>
      </div>
    "). vm_compute. reflexivity.
  - intros L A. apply Nat.ltb_ge in L. rewrite L.
    split; [reflexivity|].
    unfold createWordTooltipHTML, meaningBlock.
    assert (N : match phonetic elementData with
                | Some p => aiTranslation p
                | None => None
                end = None).
    { destruct (phonetic elementData) as [info|]; [apply A|]; reflexivity. }
    rewrite N.
    do 4 apply contains_app_r. apply contains_between_more.
    + exists (tpl "
            "). vm_compute. reflexivity.
    + exists (tpl "
          </div>
          "). vm_compute. reflexivity.
Qed.

End RendererClaims.

Lemma C7_main_tooltip_by_token_count_witness :
  contains (tpl "<div class='wxt-phrase-words'>"
            ++ tpl "<span class='wxt-interactive-word'>break</span>"
            ++ tpl "<span class='wxt-interactive-word'>a</span>"
            ++ tpl "<span class='wxt-interactive-word'>leg</span>"
            ++ tpl "</div>")
    (@createMainTooltipHTML sampleImports {| showPlayButton := true |}
       {| word := js "break a leg"; phonetic := None |}) /\
  contains (meaningBlock meaningLoadingMarkup)
    (@createMainTooltipHTML sampleImports {| showPlayButton := true |}
       {| word := js "hello"; phonetic := None |}).
Proof.
  split.
  - refine (proj1 (proj2 (proj1
      (@C7_main_tooltip_by_token_count sampleImports
         {| showPlayButton := true |}
         {| word := js "break a leg"; phonetic := None |}) _))).
    vm_compute. lia.
  - refine (proj2 (proj2
      (@C7_main_tooltip_by_token_count sampleImports
         {| showPlayButton := true |}
         {| word := js "hello"; phonetic := None |}) _ _)).
    + vm_compute. lia.
    + intros info H. discriminate H.
Defined.

(* ===================================================================== *)
(** * Patching the meaning into a live tooltip *)
(* ===================================================================== *)

Section ListSearch.
Context {A B : Type}.

Lemma firstSome_app_some (f : A -> option B) l r y :
  firstSome f l = Some y -> firstSome f (l ++ r) = Some y.
Proof.
  induction l as [|x l IH]; simpl; [discriminate|].
  destruct (f x); auto.
Qed.

Lemma firstSome_app_none (f : A -> option B) l r :
  firstSome f l = None -> firstSome f (l ++ r) = firstSome f r.
Proof.
  induction l as [|x l IH]; simpl; [reflexivity|].
  destruct (f x); [discriminate | auto].
Qed.

Lemma rewriteFirst_app_some (f : A -> option (list A)) l r l' :
  rewriteFirst f l = Some l' -> rewriteFirst f (l ++ r) = Some (l' ++ r).
Proof.
  revert l'. induction l as [|x l IH]; simpl; intros l'; [discriminate|].
  destruct (f x) as [repl|].
  - intros H; inversion H; subst. rewrite <- app_assoc. reflexivity.
  - destruct (rewriteFirst f l) as [l0|]; [|discriminate].
    intros H; inversion H; subst. rewrite (IH l0 eq_refl). reflexivity.
Qed.

Lemma rewriteFirst_app_none (f : A -> option (list A)) l r :
  rewriteFirst f l = None ->
  rewriteFirst f (l ++ r)
  = match rewriteFirst f r with Some r' => Some (l ++ r') | None => None end.
Proof.
  induction l as [|x l IH]; simpl.
  - intros _. destruct (rewriteFirst f r); reflexivity.
  - destruct (f x); [discriminate|].
    destruct (rewriteFirst f l); [discriminate|]. intros _.
    rewrite (IH eq_refl). destruct (rewriteFirst f r); reflexivity.
Qed.

End ListSearch.

Section TreeSearch.
Variable cls : jsstring.

Lemma countForest_app c l r :
  countForest c (l ++ r) = (countForest c l + countForest c r)%nat.
Proof. unfold countForest. rewrite map_app, list_sum_app. reflexivity. Qed.

Lemma countForest_cons c n l :
  countForest c (n :: l) = (countNode c n + countForest c l)%nat.
Proof. reflexivity. Qed.

(** Where the search finds nothing there is nothing to rewrite and
    nothing to count, and conversely. *)
Lemma findNode_none n :
  findNode cls n = None ->
  (forall g, rewriteNode cls g n = None) /\ countNode cls n = 0%nat.
Proof.
  induction n as [s|t classes d ch IH] using Node_forall_ind; simpl;
    [auto|].
  destruct (inClassList cls classes); [discriminate|].
  intros H.
  assert (F : (forall g, rewriteFirst (rewriteNode cls g) ch = None)
              /\ list_sum (map (countNode cls) ch) = 0%nat).
  { induction IH as [|c r Hc _ IHr]; simpl in *; [auto|].
    destruct (findNode cls c); [discriminate|].
    destruct (Hc eq_refl) as [R C]. destruct (IHr H) as [R' C'].
    split; [|lia]. intros g. rewrite R, R'. reflexivity. }
  destruct F as [R C]. split; [|simpl; lia].
  intros g. rewrite R. reflexivity.
Qed.

Lemma findForest_none l :
  findForest cls l = None ->
  (forall g, rewriteForest cls g l = None) /\ countForest cls l = 0%nat.
Proof.
  unfold findForest, rewriteForest.
  induction l as [|c r IH]; simpl; [auto|].
  destruct (findNode cls c) eqn:F; [discriminate|]. intros H.
  destruct (findNode_none c F) as [R C]. destruct (IH H) as [R' C'].
  split.
  - intros g. rewrite R, R'. reflexivity.
  - rewrite countForest_cons. lia.
Qed.

Lemma countNode_zero n : countNode cls n = 0%nat -> findNode cls n = None.
Proof.
  induction n as [s|t classes d ch IH] using Node_forall_ind; simpl;
    [auto|].
  destruct (inClassList cls classes); [discriminate|]. simpl.
  induction IH as [|c r Hc _ IHr]; simpl; [auto|].
  intros H. rewrite Hc by lia. apply IHr. lia.
Qed.

Lemma countForest_zero l :
  countForest cls l = 0%nat -> findForest cls l = None.
Proof.
  unfold findForest. induction l as [|c r IH]; simpl; [auto|].
  rewrite countForest_cons. intros H.
  rewrite (countNode_zero c) by lia. apply IH. lia.
Qed.

Lemma decompose_from l :
  Forall (fun n => forall x, findNode cls n = Some x ->
                             exists ctx, Decomposed cls [n] x ctx) l ->
  forall x, findForest cls l = Some x -> exists ctx, Decomposed cls l x ctx.
Proof.
  unfold findForest.
  induction 1 as [|c r Hc _ IH]; simpl; intros x F; [discriminate|].
  destruct (findNode cls c) as [y|] eqn:Fc.
  - inversion F; subst y.
    destruct (Hc x eq_refl) as [ctx [[Hn Hr Hf] [E [X G]]]].
    exists (fun repl => ctx repl ++ r). split; [split|split; [|split]].
    + intros c0 repl. rewrite !countForest_app, (Hn c0 repl). lia.
    + intros g repl repl' R. apply rewriteFirst_app_some.
      exact (Hr g repl repl' R).
    + intros repl y Y. apply firstSome_app_some. exact (Hf repl y Y).
    + rewrite E. reflexivity.
    + exact X.
    + intros g. change (c :: r) with ([c] ++ r).
      apply rewriteFirst_app_some. exact (G g).
  - destruct (IH x F) as [ctx [[Hn Hr Hf] [E [X G]]]].
    destruct (findNode_none c Fc) as [Rc _].
    exists (fun repl => c :: ctx repl). split; [split|split; [|split]].
    + intros c0 repl. rewrite !countForest_cons, (Hn c0 repl). lia.
    + intros g repl repl' R. unfold rewriteForest in *. simpl.
      rewrite Rc, (Hr g repl repl' R). reflexivity.
    + intros repl y Y. unfold findForest in *. simpl.
      rewrite Fc. exact (Hf repl y Y).
    + rewrite E. reflexivity.
    + exact X.
    + intros g. unfold rewriteForest in *. simpl. rewrite Rc, (G g).
      reflexivity.
Qed.

Lemma decompose_node n :
  forall x, findNode cls n = Some x -> exists ctx, Decomposed cls [n] x ctx.
Proof.
  induction n as [s|t classes d ch IH] using Node_forall_ind;
    intros x F; simpl in F; [discriminate|].
  destruct (inClassList cls classes) eqn:C.
  - inversion F; subst x.
    exists (fun repl => repl ++ []). split; [split|split; [|split]].
    + intros c0 repl. rewrite countForest_app. simpl.
      change (countForest c0 []) with 0%nat. lia.
    + intros g repl repl' R. apply rewriteFirst_app_some. exact R.
    + intros repl y Y. apply firstSome_app_some. exact Y.
    + reflexivity.
    + exists t, classes, d, ch. auto.
    + intros g. unfold rewriteForest. simpl. rewrite C. reflexivity.
  - destruct (decompose_from ch IH x F) as [ctx [[Hn Hr Hf] [E [X G]]]].
    exists (fun repl => [Element t classes d (ctx repl)]).
    split; [split|split; [|split]].
    + intros c0 repl. rewrite !countForest_cons. simpl.
      fold (countForest c0 (ctx repl)). fold (countForest c0 (ctx [])).
      rewrite (Hn c0 repl). unfold countForest at 3 5. simpl. lia.
    + intros g repl repl' R. unfold rewriteForest in *. simpl. rewrite C.
      rewrite (Hr g repl repl' R). reflexivity.
    + intros repl y Y. unfold findForest in *. simpl. rewrite C.
      rewrite (Hf repl y Y). reflexivity.
    + rewrite E. reflexivity.
    + exact X.
    + intros g. unfold rewriteForest in *. simpl. rewrite C, (G g).
      reflexivity.
Qed.

Lemma decompose l x :
  findForest cls l = Some x -> exists ctx, Decomposed cls l x ctx.
Proof.
  apply decompose_from. apply Forall_forall. intros n _. apply decompose_node.
Qed.

End TreeSearch.

Section MeaningPatch.

Lemma showMeaning_twice m m2 x :
  showMeaning m2 (showMeaning m x) = showMeaning m2 x.
Proof. destruct x; reflexivity. Qed.

Lemma showMeaning_element m t classes d ch :
  showMeaning m (Element t classes d ch)
  = Element t classes (Some (js "block"))
      (if truthy m then [TextNode m] else []).
Proof. reflexivity. Qed.

Lemma showMeaning_count c m t classes d ch :
  countNode c (showMeaning m (Element t classes d ch))
  = if inClassList c classes then 1%nat else 0%nat.
Proof.
  rewrite showMeaning_element. simpl.
  destruct (inClassList c classes), (truthy m); reflexivity.
Qed.

Lemma showMeaning_text m t classes d ch :
  textContent (showMeaning m (Element t classes d ch)) = m.
Proof.
  rewrite showMeaning_element. destruct m as [|u m]; simpl; [reflexivity|].
  rewrite app_nil_r. reflexivity.
Qed.

Lemma countNode_carrier c t classes d ch :
  inClassList c classes = true ->
  (1 <= countNode c (Element t classes d ch))%nat.
Proof. intros H. simpl. rewrite H. lia. Qed.

Lemma countNode_not_carrier c t classes d ch :
  countNode c (Element t classes d ch) = 0%nat ->
  inClassList c classes = false.
Proof.
  simpl. destruct (inClassList c classes); [discriminate | reflexivity].
Qed.

Lemma loading_is_not_text :
  inClassList meaningLoadingClass [meaningTextClass] = false.
Proof. vm_compute. reflexivity. Qed.

Lemma text_is_text : inClassList meaningTextClass [meaningTextClass] = true.
Proof. vm_compute. reflexivity. Qed.

(** The children of the meaning container before and after the patch. *)
Lemma patchMeaningContainer_children m t classes d ch :
  (countForest meaningLoadingClass ch <= 1)%nat ->
  (countForest meaningTextClass ch <= 1)%nat ->
  exists ch2 meaningElement,
    patchMeaningContainer m (Element t classes d ch)
    = Element t classes d ch2 /\
    countForest meaningLoadingClass ch2 = 0%nat /\
    countForest meaningTextClass ch2 = 1%nat /\
    findForest meaningTextClass ch2 = Some meaningElement /\
    textContent meaningElement = m /\
    styleDisplay meaningElement = Some (js "block") /\
    forall m2,
      patchMeaningContainer m2 (Element t classes d ch2)
      = patchMeaningContainer m2 (Element t classes d ch).
Proof.
  intros HL HT. unfold patchMeaningContainer.
  (* the loading placeholder, if any, goes *)
  set (ch1 := match rewriteForest meaningLoadingClass (fun _ => []) ch with
              | Some ch' => ch'
              | None => ch
              end).
  assert (L1 : countForest meaningLoadingClass ch1 = 0%nat /\
               (countForest meaningTextClass ch1 <= 1)%nat).
  { unfold ch1.
    destruct (findForest meaningLoadingClass ch) as [x|] eqn:F.
    - destruct (decompose meaningLoadingClass ch x F)
        as [ctx [[Hn _ _] [E [[tx [cx [dx [chx [-> X]]]]] G]]]].
      rewrite (G (fun _ => [])).
      pose proof (Hn meaningLoadingClass [Element tx cx dx chx]) as N1.
      pose proof (Hn meaningTextClass [Element tx cx dx chx]) as N2.
      rewrite E in N1, N2. rewrite countForest_cons in N1, N2.
      pose proof (countNode_carrier meaningLoadingClass tx cx dx chx X).
      change (countForest meaningLoadingClass []) with 0%nat in N1.
      lia.
    - destruct (findForest_none meaningLoadingClass ch F) as [R C].
      rewrite R. lia. }
  destruct L1 as [L1 T1].
  assert (NoLoading : forall l,
            countForest meaningLoadingClass l = 0%nat ->
            match rewriteForest meaningLoadingClass (fun _ => []) l with
            | Some ch' => ch'
            | None => l
            end = l).
  { intros l Z. apply countForest_zero in Z.
    destruct (findForest_none meaningLoadingClass l Z) as [R _].
    rewrite R. reflexivity. }
  destruct (findForest meaningTextClass ch1) as [x|] eqn:F.
  - (* the text element is there: it is reused *)
    destruct (decompose meaningTextClass ch1 x F)
      as [ctx [[Hn Hr Hf] [E [[tx [cx [dx [chx [-> X]]]]] G]]]].
    rewrite (G (fun y => [showMeaning m y])).
    set (shown := showMeaning m (Element tx cx dx chx)).
    pose proof (Hn meaningLoadingClass [Element tx cx dx chx]) as N1.
    pose proof (Hn meaningTextClass [Element tx cx dx chx]) as N2.
    rewrite E in N1, N2. rewrite countForest_cons in N1, N2.
    change (countForest meaningLoadingClass []) with 0%nat in N1.
    change (countForest meaningTextClass []) with 0%nat in N2.
    pose proof (countNode_carrier meaningTextClass tx cx dx chx X) as X1.
    assert (X0 : inClassList meaningLoadingClass cx = false)
      by (apply (countNode_not_carrier meaningLoadingClass tx cx dx chx); lia).
    assert (Z1 : countForest meaningLoadingClass (ctx [shown]) = 0%nat).
    { rewrite (Hn meaningLoadingClass [shown]), countForest_cons.
      unfold shown. rewrite showMeaning_count, X0.
      change (countForest meaningLoadingClass []) with 0%nat. lia. }
    assert (FS : forall y,
               findForest meaningTextClass
                 [showMeaning y (Element tx cx dx chx)]
               = Some (showMeaning y (Element tx cx dx chx))).
    { intros y. rewrite showMeaning_element. unfold findForest. simpl.
      rewrite X. reflexivity. }
    exists (ctx [shown]), shown. split; [reflexivity|].
    split; [exact Z1|]. split; [|split; [|split; [|split]]].
    + rewrite (Hn meaningTextClass [shown]), countForest_cons.
      unfold shown. rewrite showMeaning_count, X.
      change (countForest meaningTextClass []) with 0%nat. lia.
    + apply Hf. apply FS.
    + apply showMeaning_text.
    + reflexivity.
    + intros m2. rewrite (NoLoading _ Z1). fold ch1.
      rewrite (G (fun y => [showMeaning m2 y])).
      rewrite (Hr (fun y => [showMeaning m2 y]) [shown]
                 [showMeaning m2 shown]).
      * unfold shown. rewrite showMeaning_twice. reflexivity.
      * unfold shown at 1. rewrite showMeaning_element.
        unfold rewriteForest. simpl. rewrite X. reflexivity.
  - (* no text element yet: one is created and appended *)
    destruct (findForest_none meaningTextClass ch1 F) as [R C].
    rewrite R.
    set (fresh := showMeaning m (createDiv meaningTextClass)).
    assert (Z1 : countForest meaningLoadingClass (ch1 ++ [fresh]) = 0%nat).
    { rewrite countForest_app, countForest_cons. unfold fresh, createDiv.
      rewrite showMeaning_count, loading_is_not_text.
      change (countForest meaningLoadingClass []) with 0%nat. lia. }
    exists (ch1 ++ [fresh]), fresh. split; [reflexivity|].
    split; [exact Z1|]. split; [|split; [|split; [|split]]].
    + rewrite countForest_app, countForest_cons. unfold fresh, createDiv.
      rewrite showMeaning_count, text_is_text.
      change (countForest meaningTextClass []) with 0%nat. lia.
    + unfold findForest in *. rewrite (firstSome_app_none _ _ _ F).
      unfold fresh, createDiv. rewrite showMeaning_element. simpl.
      try rewrite text_is_text. reflexivity.
    + apply showMeaning_text.
    + reflexivity.
    + intros m2. rewrite (NoLoading _ Z1). fold ch1. rewrite R.
      unfold rewriteForest in *.
      rewrite (rewriteFirst_app_none _ _ _ (R (fun y => [showMeaning m2 y]))).
      unfold fresh, createDiv. rewrite showMeaning_element. simpl.
      try rewrite text_is_text. reflexivity.
Qed.

(** C8.  On a tooltip that holds a meaning container with at most one
    loading placeholder and at most one meaning text (every tooltip the
    renderer builds is so), [updateTooltipWithMeaning] leaves the container
    without a loading placeholder and with exactly one meaning-text
    element, whose text is the explanation given and which is displayed.
    Calling it again, with the same or with another explanation, gives the
    tooltip a single call with the later explanation gives: the text
    element is reused and its content overwritten, no second one is
    added. *)
Theorem C8_meaning_patch_is_idempotent tooltip meaning container :
  querySelector meaningContainerClass tooltip = Some container ->
  (countForest meaningLoadingClass (children container) <= 1)%nat ->
  (countForest meaningTextClass (children container) <= 1)%nat ->
  exists container' meaningElement,
    querySelector meaningContainerClass
      (updateTooltipWithMeaning tooltip meaning) = Some container' /\
    countForest meaningLoadingClass (children container') = 0%nat /\
    countForest meaningTextClass (children container') = 1%nat /\
    querySelector meaningTextClass container' = Some meaningElement /\
    textContent meaningElement = meaning /\
    styleDisplay meaningElement = Some (js "block") /\
    forall meaning2,
      updateTooltipWithMeaning (updateTooltipWithMeaning tooltip meaning)
        meaning2
      = updateTooltipWithMeaning tooltip meaning2.
Proof.
  intros Q HL HT.
  destruct tooltip as [t0 cl0 d0 ch0|s]; [|discriminate Q].
  unfold querySelector in Q. simpl in Q.
  destruct (decompose meaningContainerClass ch0 container Q)
    as [ctx [[Hn Hr Hf] [E [[tc [cc [dc [chc [-> X]]]]] G]]]].
  simpl in HL, HT.
  destruct (patchMeaningContainer_children meaning tc cc dc chc HL HT)
    as [ch2 [el [P [Z1 [Z2 [F [TC [SD Again]]]]]]]].
  assert (U : forall m,
            updateTooltipWithMeaning (Element t0 cl0 d0 ch0) m
            = Element t0 cl0 d0
                (ctx [patchMeaningContainer m (Element tc cc dc chc)])).
  { intros m. unfold updateTooltipWithMeaning.
    rewrite (G (fun c => [patchMeaningContainer m c])). reflexivity. }
  exists (Element tc cc dc ch2), el.
  split; [|split; [exact Z1|split; [exact Z2|split; [exact F|
           split; [exact TC|split; [exact SD|]]]]]].
  - rewrite U, P. unfold querySelector. simpl children. apply Hf.
    unfold findForest. simpl. rewrite X. reflexivity.
  - intros m2. rewrite (U meaning), (U m2), P.
    unfold updateTooltipWithMeaning.
    rewrite (Hr (fun c => [patchMeaningContainer m2 c])
               [Element tc cc dc ch2]
               [patchMeaningContainer m2 (Element tc cc dc ch2)]).
    + rewrite Again. reflexivity.
    + unfold rewriteForest. simpl. rewrite X. reflexivity.
Qed.

End MeaningPatch.

Lemma C8_meaning_patch_is_idempotent_witness :
  exists container' meaningElement,
    querySelector meaningContainerClass
      (updateTooltipWithMeaning helloTooltip (js "interj. 你好"))
    = Some container' /\
    countForest meaningLoadingClass (children container') = 0%nat /\
    countForest meaningTextClass (children container') = 1%nat /\
    querySelector meaningTextClass container' = Some meaningElement /\
    textContent meaningElement = js "interj. 你好" /\
    styleDisplay meaningElement = Some (js "block") /\
    forall meaning2,
      updateTooltipWithMeaning
        (updateTooltipWithMeaning helloTooltip (js "interj. 你好")) meaning2
      = updateTooltipWithMeaning helloTooltip meaning2.
Proof.
  apply (C8_meaning_patch_is_idempotent helloTooltip (js "interj. 你好")
           (div "wxt-meaning-container" [
              TextNode (js " ");
              div "wxt-meaning-loading" [TextNode (js "获取词义中...")];
              TextNode (js " ")])).
  - vm_compute. reflexivity.
  - vm_compute. lia.
  - vm_compute. lia.
Defined.

(* ===================================================================== *)
(** * The missing-key notification *)
(* ===================================================================== *)

Section Notifications.

Lemma onValidateConfiguration_created bg req :
  let bg' := fst (onValidateConfiguration bg req) in
  (created bg' = created bg /\
   apiKeyNotificationShown bg' = apiKeyNotificationShown bg) \/
  (created bg' = apiKeyNotification :: created bg /\
   isUserAction (requestSource req) = true /\
   apiKeyNotificationShown bg' = apiKeyNotificationShown bg) \/
  (created bg' = apiKeyNotification :: created bg /\
   isUserAction (requestSource req) = false /\
   apiKeyNotificationShown bg = false /\
   apiKeyNotificationShown bg' = true).
Proof.
  unfold onValidateConfiguration.
  destruct (settingsRead req) as [settings|]; simpl; [|auto].
  destruct (isConfigValid settings); simpl; [auto|].
  destruct (isUserAction (requestSource req)); simpl; [auto|].
  destruct (apiKeyNotificationShown bg) eqn:S; simpl; auto.
  right; right. auto.
Qed.

Lemma onValidateConfiguration_step bg req :
  fst (onValidateConfiguration bg req)
  = if keyMissing req then
      if isUserAction (requestSource req)
      then {| apiKeyNotificationShown := apiKeyNotificationShown bg;
              created := apiKeyNotification :: created bg |}
      else if apiKeyNotificationShown bg then bg
      else {| apiKeyNotificationShown := true;
              created := apiKeyNotification :: created bg |}
    else bg.
Proof.
  unfold onValidateConfiguration, keyMissing.
  destruct (settingsRead req) as [settings|]; [|reflexivity].
  destruct (isConfigValid settings); [reflexivity|]. cbn [negb].
  destruct (isUserAction (requestSource req)); [reflexivity|].
  destruct (apiKeyNotificationShown bg); reflexivity.
Qed.

Lemma repeat_shift (A : Type) (x : A) n l :
  repeat x n ++ x :: l = x :: repeat x n ++ l.
Proof. induction n as [|n IH]; simpl; [reflexivity | rewrite IH; reflexivity]. Qed.

Lemma handleAll_exact reqs : forall bg,
  created (handleAll bg reqs)
  = repeat apiKeyNotification
      (userActionAlerts reqs
       + (if negb (apiKeyNotificationShown bg) && pageLoadAlert reqs
          then 1 else 0))
    ++ created bg /\
  apiKeyNotificationShown (handleAll bg reqs)
  = apiKeyNotificationShown bg || pageLoadAlert reqs.
Proof.
  induction reqs as [|req reqs IH]; intros bg.
  - unfold pageLoadAlert, userActionAlerts. simpl.
    rewrite andb_false_r, orb_false_r. auto.
  - unfold handleAll. simpl fold_left.
    fold (handleAll (fst (onValidateConfiguration bg req)) reqs).
    destruct (IH (fst (onValidateConfiguration bg req))) as [C F].
    rewrite C, F, onValidateConfiguration_step. clear C F IH.
    unfold userActionAlerts, pageLoadAlert. cbn [filter existsb].
    fold (userActionAlerts reqs). fold (pageLoadAlert reqs).
    destruct (keyMissing req); cbn [andb orb]; [|auto].
    destruct (isUserAction (requestSource req)); cbn [negb orb andb].
    + cbn [created apiKeyNotificationShown List.length].
      rewrite repeat_shift. auto.
    + destruct (apiKeyNotificationShown bg) eqn:S; cbn [negb andb orb].
      * rewrite S. cbn [negb andb orb]. auto.
      * cbn [created apiKeyNotificationShown negb andb orb].
        rewrite repeat_shift, Nat.add_0_r, Nat.add_1_r. auto.
Qed.

(** C9, with the source of the request taken into account.  Over any
    series of [validate-configuration] requests handled one after another,
    the notifications created are exactly these: one for every request
    with source [user_action] that finds the key missing, whatever the
    session flag; and one more, at most, for all the other requests
    together, created only when the flag was not set at the start and one
    of them finds the key missing.  The flag is set by such a request and
    by nothing else: once set it stays set and no further request that is
    not a user action creates the notification, while a user action
    creates it every time and leaves the flag as it is. *)
Theorem C9_notifications_by_source reqs : forall bg,
  created (handleAll bg reqs)
  = repeat apiKeyNotification
      (userActionAlerts reqs
       + (if negb (apiKeyNotificationShown bg) && pageLoadAlert reqs
          then 1 else 0))
    ++ created bg /\
  apiKeyNotificationShown (handleAll bg reqs)
  = apiKeyNotificationShown bg || pageLoadAlert reqs /\
  (forall req,
     keyMissing req = true -> isUserAction (requestSource req) = true ->
     fst (onValidateConfiguration bg req)
     = {| apiKeyNotificationShown := apiKeyNotificationShown bg;
          created := apiKeyNotification :: created bg |}) /\
  (forall req,
     apiKeyNotificationShown bg = true ->
     isUserAction (requestSource req) = false ->
     fst (onValidateConfiguration bg req) = bg).
Proof.
  intros bg. destruct (handleAll_exact reqs bg) as [C F].
  split; [exact C|]. split; [exact F|]. split.
  - intros req K U. rewrite onValidateConfiguration_step, K, U.
    reflexivity.
  - intros req S U. rewrite onValidateConfiguration_step, U, S.
    destruct (keyMissing req); reflexivity.
Qed.

End Notifications.

Lemma C9_notifications_by_source_witness :
  created (handleAll unflaggedBackground mixedRequests)
  = [apiKeyNotification; apiKeyNotification; apiKeyNotification] /\
  apiKeyNotificationShown (handleAll unflaggedBackground mixedRequests)
  = true /\
  fst (onValidateConfiguration flaggedBackground userActionRequest)
  = {| apiKeyNotificationShown := true;
       created := [apiKeyNotification] |} /\
  fst (onValidateConfiguration flaggedBackground pageLoadRequest)
  = flaggedBackground.
Proof.
  split; [|split; [|split]].
  - exact (proj1 (C9_notifications_by_source mixedRequests
                    unflaggedBackground)).
  - exact (proj1 (proj2 (C9_notifications_by_source mixedRequests
                           unflaggedBackground))).
  - exact (proj1 (proj2 (proj2 (C9_notifications_by_source []
                                  flaggedBackground)))
             userActionRequest eq_refl eq_refl).
  - exact (proj2 (proj2 (proj2 (C9_notifications_by_source []
                                  flaggedBackground)))
             pageLoadRequest eq_refl eq_refl).
Defined.

(** C9, the case the written specification leaves out: the flag is set,
    the active configuration has no key, and a request that comes from a
    user action still creates the notification, where the specification
    promises that no further request does. *)
Lemma C9_user_action_ignores_the_flag :
  apiKeyNotificationShown flaggedBackground = true /\
  created (fst (onValidateConfiguration flaggedBackground userActionRequest))
  = [apiKeyNotification].
Proof. vm_compute. split; reflexivity. Qed.

(* ===================================================================== *)
(** * Further properties of the provider *)
(* ===================================================================== *)

Section ProviderResults.
Context {I : Imports}.
Import JsMap JsMapFacts.

Lemma getMeaning_cases p tEnter tSettle reply word :
  (exists d,
     snd (fst (getMeaning p tEnter tSettle reply word)) = succeeded d true /\
     snd (getMeaning p tEnter tSettle reply word) = []) \/
  (exists d w options,
     snd (fst (getMeaning p tEnter tSettle reply word)) = succeeded d false /\
     snd (getMeaning p tEnter tSettle reply word) = [(w, options)]) \/
  (exists msg,
     snd (fst (getMeaning p tEnter tSettle reply word)) = failed msg /\
     (List.length (snd (getMeaning p tEnter tSettle reply word)) <= 1)%nat).
Proof.
  unfold getMeaning.
  destruct (getMeaning_enter p tEnter word) as [p1 [r|w options]] eqn:E.
  - unfold getMeaning_enter in E.
    destruct word as [| |s|];
      try (inversion E; subst; right; right; eexists; split;
           [reflexivity | simpl; lia]).
    destruct (negb (truthy s)).
    + inversion E; subst; right; right; eexists; split;
        [reflexivity | simpl; lia].
    + destruct (getFromCache (cache p) tEnter (trim (toLowerCase s)))
        as [[d|] c1].
      * inversion E; subst. left. exists d. auto.
      * destruct (negb (truthy (apiKey (apiConfig (withCache p c1)))));
          inversion E; subst.
        right; right; eexists; split; [reflexivity | simpl; lia].
  - destruct (getMeaning_settle_result p1 tSettle w reply)
      as [[F _]|[result [_ [_ R]]]].
    + right; right.
      destruct reply as [result|[m|]]; simpl in *.
      * destruct (callSuccess result); simpl in *; [discriminate F|].
        eexists; split; [reflexivity | lia].
      * eexists; split; [reflexivity | lia].
      * eexists; split; [reflexivity | lia].
    + right; left. rewrite R. simpl. eauto.
Qed.

(** X1.  Every call of [getMeaning] ends in one of three ways: a success
    flagged [cached = true] that sent nothing, a success flagged
    [cached = false] that sent exactly one request, or a failure carrying a
    message, no data and no [cached] flag, after at most one request. *)
Theorem getMeaning_outcomes p tEnter tSettle reply word :
  (exists d,
     snd (fst (getMeaning p tEnter tSettle reply word)) = succeeded d true /\
     snd (getMeaning p tEnter tSettle reply word) = []) \/
  (exists d w options,
     snd (fst (getMeaning p tEnter tSettle reply word)) = succeeded d false /\
     snd (getMeaning p tEnter tSettle reply word) = [(w, options)]) \/
  (exists msg,
     snd (fst (getMeaning p tEnter tSettle reply word)) = failed msg /\
     (List.length (snd (getMeaning p tEnter tSettle reply word)) <= 1)%nat).
Proof. apply getMeaning_cases. Qed.

Lemma parseAIResponse_blank (content_ : option jsstring) (w : jsstring) :
  match content_ with
  | Some c => forallb isWhiteSpace c = true
  | None => True
  end ->
  parseAIResponse content_ w
  = {| explain := w ++ js " 的释义暂不可用"; source := js "ai-translation" |}.
Proof.
  unfold parseAIResponse, or_else. destruct content_ as [c|]; intros B.
  - apply trim_nil in B. rewrite B. reflexivity.
  - reflexivity.
Qed.

(** X2.  An argument that is not a non-empty string ([undefined], [null],
    the empty string, a value of another type) is refused with the
    invalid-word message; the cache is not consulted, nothing is sent and
    the provider is unchanged. *)
Theorem getMeaning_refuses_invalid_argument p tEnter tSettle reply word :
  (forall s, word = JString s -> s = []) ->
  getMeaning p tEnter tSettle reply word
  = (p, failed invalidWordMessage, []).
Proof.
  intros H. unfold getMeaning.
  rewrite (getMeaning_enter_invalid p tEnter word); [reflexivity|].
  intros s E. rewrite (H s E). reflexivity.
Qed.

(** X3.  [getPhonetic] succeeds exactly when [getMeaning] does, with the
    same provider afterwards, the same requests and the same [cached]
    flag.  On success it returns the word as it was passed in (not the
    cleaned one), an empty list of phonetics and the meaning; on failure
    it returns the error of [getMeaning] and no data. *)
Theorem getPhonetic_mirrors_getMeaning p tEnter tSettle reply word :
  fst (fst (getPhonetic p tEnter tSettle reply word))
  = fst (fst (getMeaning p tEnter tSettle reply word)) /\
  snd (getPhonetic p tEnter tSettle reply word)
  = snd (getMeaning p tEnter tSettle reply word) /\
  phoneticSuccess (snd (fst (getPhonetic p tEnter tSettle reply word)))
  = success (snd (fst (getMeaning p tEnter tSettle reply word))) /\
  phoneticCached (snd (fst (getPhonetic p tEnter tSettle reply word)))
  = cached (snd (fst (getMeaning p tEnter tSettle reply word))) /\
  phoneticErrorText (snd (fst (getPhonetic p tEnter tSettle reply word)))
  = error (snd (fst (getMeaning p tEnter tSettle reply word))) /\
  phoneticData (snd (fst (getPhonetic p tEnter tSettle reply word)))
  = match resultData (snd (fst (getMeaning p tEnter tSettle reply word))) with
    | Some d => Some (word, {| phonetics := []; aiTranslation := Some d;
                               phoneticError := None |})
    | None => None
    end.
Proof.
  unfold getPhonetic.
  pose proof (getMeaning_cases p tEnter tSettle reply word) as O.
  destruct (getMeaning p tEnter tSettle reply word) as [[p1 r] sent].
  simpl in *.
  destruct O as [[d [-> _]]|[[d [w [o [-> _]]]]|[msg [-> _]]]];
    repeat split; reflexivity.
Qed.

(** X4.  The cache is keyed by the cleaned word: once a call for one
    spelling has succeeded with [cached = false], a call for any other
    valid spelling with the same lower-cased, trimmed form, entered before
    the lifetime has run out, returns the same payload with
    [cached = true] and sends nothing. *)
Theorem getMeaning_shares_entry_across_spellings
  p tEnter tSettle reply s1 p1 r1 sent1 s2 tEnter2 tSettle2 reply2 :
  getMeaning p tEnter tSettle reply (JString s1) = (p1, r1, sent1) ->
  success r1 = true -> cached r1 = Some false ->
  truthy s2 = true ->
  trim (toLowerCase s2) = trim (toLowerCase s1) ->
  tEnter2 - tSettle < cacheTTL p ->
  getMeaning p1 tEnter2 tSettle2 reply2 (JString s2)
  = (p1,
     {| success := true; resultData := resultData r1; cached := Some true;
        error := None |},
     []).
Proof.
  intros E S C T K L.
  destruct (getMeaning_stores _ _ _ _ _ _ _ _ E S C)
    as [s [d [W [_ [-> [_ [_ G]]]]]]].
  inversion W; subst s.
  rewrite <- K in G.
  rewrite (getMeaning_hit p1 tEnter2 tSettle2 reply2 s2 _ T G)
    by (simpl; exact L).
  reflexivity.
Qed.

(** X5.  A reply that reports success but carries no usable text (no
    content, or white space only) is cached like any other: the call
    returns the placeholder with [cached = false], and a later call for
    the word within the lifetime returns the same placeholder with
    [cached = true] without asking the service again. *)
Theorem blank_reply_is_cached_as_placeholder
  p tEnter tSettle s result tEnter2 tSettle2 reply2 :
  truthy s = true ->
  fst (getFromCache (cache p) tEnter (trim (toLowerCase s))) = None ->
  truthy (apiKey (apiConfig p)) = true ->
  callSuccess result = true ->
  match content result with
  | Some c => forallb isWhiteSpace c = true
  | None => True
  end ->
  tEnter2 - tSettle < cacheTTL p ->
  let w := trim (toLowerCase s) in
  let placeholder :=
    {| explain := w ++ js " 的释义暂不可用"; source := js "ai-translation" |} in
  snd (fst (getMeaning p tEnter tSettle (Fulfilled result) (JString s)))
  = succeeded placeholder false /\
  getMeaning
    (fst (fst (getMeaning p tEnter tSettle (Fulfilled result) (JString s))))
    tEnter2 tSettle2 reply2 (JString s)
  = (fst (fst (getMeaning p tEnter tSettle (Fulfilled result) (JString s))),
     succeeded placeholder true, []).
Proof.
  intros T M K S B L w placeholder. fold w in M.
  assert (P : parseAIResponse (content result) w = placeholder)
    by (apply parseAIResponse_blank; exact B).
  assert (E : getMeaning p tEnter tSettle (Fulfilled result) (JString s)
              = (withCache
                   (withCache p (snd (getFromCache (cache p) tEnter w)))
                   (setCache (cacheTTL p)
                      (snd (getFromCache (cache p) tEnter w)) tSettle w
                      placeholder),
                 succeeded placeholder false,
                 [(w, callOptions
                        (withCache p (snd (getFromCache (cache p) tEnter w))))])).
  { unfold getMeaning. rewrite (getMeaning_enter_string p tEnter s T).
    cbv zeta. fold w. rewrite M, K. simpl. rewrite S. simpl. fold w.
    rewrite P. reflexivity. }
  rewrite E. split; [reflexivity|]. cbn [fst snd].
  apply (getMeaning_hit _ tEnter2 tSettle2 reply2 s
           {| data := placeholder; timestamp := tSettle; ttl := cacheTTL p |}
           T).
  - cbn [cache withCache]. fold w. apply setCache_fresh.
    apply (getFromCache_miss (cache p) tEnter w M).
  - simpl. exact L.
Qed.

End ProviderResults.

Section ProviderSequences.
Context {I : Imports}.
Import JsMap JsMapFacts.

(** Where a call for a valid word ends in failure, the cache lookup had
    missed and the provider is the one left by that lookup. *)
Lemma getMeaning_failure_state p tEnter tSettle reply s p1 r sent :
  truthy s = true ->
  getMeaning p tEnter tSettle reply (JString s) = (p1, r, sent) ->
  success r = false ->
  fst (getFromCache (cache p) tEnter (trim (toLowerCase s))) = None /\
  p1 = withCache p (snd (getFromCache (cache p) tEnter (trim (toLowerCase s)))).
Proof.
  intros T E F. unfold getMeaning in E.
  rewrite (getMeaning_enter_string p tEnter s T) in E. cbv zeta in E.
  set (w := trim (toLowerCase s)) in *.
  set (p0 := withCache p (snd (getFromCache (cache p) tEnter w))) in *.
  destruct (fst (getFromCache (cache p) tEnter w)) as [d0|].
  - inversion E; subst. discriminate F.
  - split; [reflexivity|].
    destruct (truthy (apiKey (apiConfig p))); [|inversion E; reflexivity].
    destruct (getMeaning_settle_result p0 tSettle w reply)
      as [[_ Q]|[result [_ [_ R]]]].
    + destruct (getMeaning_settle p0 tSettle w reply) as [p2 r2].
      inversion E; subst. exact Q.
    + rewrite R in E. inversion E; subst. discriminate F.
Qed.

(** X6.  Failures are not remembered: after a call for a valid word has
    failed, the next call for that word, whenever it comes, sends a request
    again (an API key being configured). *)
Theorem failed_call_is_asked_again
  p tEnter tSettle reply s p1 r sent tEnter2 tSettle2 reply2 :
  truthy s = true ->
  truthy (apiKey (apiConfig p)) = true ->
  getMeaning p tEnter tSettle reply (JString s) = (p1, r, sent) ->
  success r = false ->
  snd (getMeaning p1 tEnter2 tSettle2 reply2 (JString s))
  = [(trim (toLowerCase s), callOptions p1)].
Proof.
  intros T K E F.
  destruct (getMeaning_failure_state _ _ _ _ _ _ _ _ T E F) as [M ->].
  set (w := trim (toLowerCase s)) in *.
  set (p0 := withCache p (snd (getFromCache (cache p) tEnter w))).
  assert (G : get w (cache p0) = None)
    by (apply (getFromCache_miss (cache p) tEnter w M)).
  unfold getMeaning. rewrite (getMeaning_enter_string p0 tEnter2 s T).
  cbv zeta. fold w. rewrite (getFromCache_absent _ tEnter2 _ G).
  cbn [fst snd]. change (apiConfig p0) with (apiConfig p). rewrite K.
  rewrite withCache_same.
  destruct (getMeaning_settle p0 tSettle2 w reply2). reflexivity.
Qed.

(** X7.  [updateApiConfig] replaces the configuration, replaces the
    timeout only when one is given, and keeps the cache and its lifetime:
    a word with a live entry is still answered from the cache afterwards,
    with nothing sent, even when the new configuration has no API key. *)
Theorem updateApiConfig_keeps_the_cache p cfg t now tSettle reply s e :
  truthy s = true ->
  get (trim (toLowerCase s)) (cache p) = Some e ->
  now - timestamp e < ttl e ->
  apiConfig (updateApiConfig p cfg t) = cfg /\
  timeout (updateApiConfig p cfg t)
  = match t with Some v => v | None => timeout p end /\
  cache (updateApiConfig p cfg t) = cache p /\
  cacheTTL (updateApiConfig p cfg t) = cacheTTL p /\
  getMeaning (updateApiConfig p cfg t) now tSettle reply (JString s)
  = (updateApiConfig p cfg t, succeeded (data e) true, []).
Proof.
  intros T G L. repeat split.
  exact (getMeaning_hit (updateApiConfig p cfg t) now tSettle reply s e T G L).
Qed.

Lemma getMeaning_bound p tEnter tSettle reply word :
  size (cache p) <= 500 ->
  (forall k, In k (keys (cache p)) -> k <> []) ->
  (forall s, word = JString s -> trim (toLowerCase s) <> []) ->
  size (cache (fst (fst (getMeaning p tEnter tSettle reply word)))) <= 500 /\
  (forall k,
     In k (keys (cache (fst (fst (getMeaning p tEnter tSettle reply word)))))
     -> k <> []).
Proof.
  intros B NE W. unfold getMeaning.
  destruct word as [| |s|]; try solve [simpl; auto].
  destruct (truthy s) eqn:T;
    [|unfold getMeaning_enter; rewrite T; simpl; auto].
  rewrite (getMeaning_enter_string p tEnter s T). cbv zeta.
  set (w := trim (toLowerCase s)) in *.
  assert (B1 : size (snd (getFromCache (cache p) tEnter w)) <= 500 /\
               (forall k, In k (keys (snd (getFromCache (cache p) tEnter w)))
                          -> k <> [])).
  { destruct (getFromCache_cache (cache p) tEnter w) as [C|[e [_ [_ C]]]];
      rewrite C; [auto|]. split.
    - pose proof (delete_length w (cache p)). unfold size in *. lia.
    - intros k Hk. apply NE. eapply delete_keys_incl; exact Hk. }
  destruct B1 as [B1 NE1].
  destruct (fst (getFromCache (cache p) tEnter w)); [simpl; auto|].
  destruct (truthy (apiKey (apiConfig p))); [|simpl; auto].
  set (p0 := withCache p (snd (getFromCache (cache p) tEnter w))).
  destruct (getMeaning_settle_result p0 tSettle w reply)
    as [[_ Q]|[result [_ [_ R]]]].
  - destruct (getMeaning_settle p0 tSettle w reply) as [p2 r2].
    simpl in *. subst p2. simpl. auto.
  - rewrite R. cbn [fst snd cache withCache].
    apply setCache_bound; auto. exact (W s eq_refl).
Qed.

(** X8.  Over any series of calls none of whose words is blank (none
    cleans to the empty string), a cache that holds at most 500 entries
    and no empty key stays so: the provider never caches more than 500
    translations. *)
Theorem getMeanings_cache_bound calls : forall p,
  size (cache p) <= 500 ->
  (forall k, In k (keys (cache p)) -> k <> []) ->
  Forall (fun c => forall s, callWord c = JString s ->
                             trim (toLowerCase s) <> []) calls ->
  size (cache (fst (fst (getMeanings p calls)))) <= 500.
Proof.
  induction calls as [|c calls IH]; intros p B NE W; [exact B|].
  inversion W as [|? ? Wc Wcs]; subst.
  destruct (getMeaning_bound p (callEnter c) (callSettle c) (callReply c)
              (callWord c) B NE Wc) as [B1 NE1].
  specialize (IH _ B1 NE1 Wcs).
  simpl getMeanings.
  destruct (getMeaning p (callEnter c) (callSettle c) (callReply c)
              (callWord c)) as [[p1 r] sent].
  simpl in IH.
  destruct (getMeanings p1 calls) as [[p2 rs] sent']. exact IH.
Qed.

Lemma miss_survives_read (c : Cache) now k now' w :
  fst (getFromCache c now' w) = None ->
  fst (getFromCache (snd (getFromCache c now k)) now' w) = None.
Proof.
  intros M.
  destruct (getFromCache_cache c now k) as [C|[e [_ [_ C]]]]; rewrite C;
    [exact M|].
  unfold getFromCache in *.
  destruct (jsstring_eqb k w) eqn:K.
  - apply jsstring_eqb_eq in K; subst. rewrite get_delete_same. reflexivity.
  - apply jsstring_eqb_neq in K. rewrite get_delete_other by exact K.
    destruct (get w c) as [e'|]; [|reflexivity].
    destruct (now' - timestamp e' <? ttl e'); [discriminate M | reflexivity].
Qed.

(** X9.  A batch does not merge its requests.  When an API key is
    configured and every word of the batch is a valid word without a live
    cache entry, starting the batch sends one request per word, in the
    order of the words, each for the cleaned word: a word that occurs
    twice is asked for twice. *)
Theorem startBatch_sends_one_request_per_word
  (words : list (Z * jsstring)) : forall p,
  truthy (apiKey (apiConfig p)) = true ->
  Forall (fun tw =>
            truthy (snd tw) = true /\
            fst (getFromCache (cache p) (fst tw)
                   (trim (toLowerCase (snd tw)))) = None) words ->
  requestsOf
    (snd (startBatch p (map (fun tw => (fst tw, JString (snd tw))) words)))
  = map (fun tw => (trim (toLowerCase (snd tw)), callOptions p)) words.
Proof.
  induction words as [|[now s] words IH]; intros p K W; [reflexivity|].
  inversion W as [|? ? [T M] Ws]; subst. simpl in T, M.
  cbn [map fst snd startBatch].
  rewrite (getMeaning_enter_string p now s T). cbv zeta.
  rewrite M, K.
  set (p1 := withCache p (snd (getFromCache (cache p) now
                                 (trim (toLowerCase s))))).
  assert (W1 : Forall (fun tw =>
                 truthy (snd tw) = true /\
                 fst (getFromCache (cache p1) (fst tw)
                        (trim (toLowerCase (snd tw)))) = None) words).
  { apply Forall_forall. intros tw Hin.
    rewrite Forall_forall in Ws. destruct (Ws tw Hin) as [T' M'].
    split; [exact T'|]. unfold p1. cbn [cache withCache].
    apply miss_survives_read. exact M'. }
  specialize (IH p1 K W1).
  destruct (startBatch p1 (map (fun tw => (fst tw, JString (snd tw))) words))
    as [p2 pendings].
  cbn [fst snd] in *. cbn [requestsOf flat_map app].
  change (callOptions p1) with (callOptions p) in IH.
  fold (requestsOf pendings). rewrite IH. reflexivity.
Qed.

End ProviderSequences.

(* ===================================================================== *)
(** * Further properties of the cache *)
(* ===================================================================== *)

Section CacheOrder.
Import JsMap JsMapFacts.
Implicit Types (c : Cache) (w k : jsstring) (d : AITranslationEntry).

Lemma setCache_full_drops_head cacheTTL c now w d k0 :
  size c = 500 -> first_key c = Some k0 -> k0 <> [] ->
  get k0 (tl c) = None -> get w c = None ->
  setCache cacheTTL c now w d
  = tl c ++ [(w, {| data := d; timestamp := now; ttl := cacheTTL |})].
Proof.
  intros S F K G0 G.
  destruct c as [|[k e] r]; [discriminate F|].
  unfold first_key in F. simpl in F. inversion F; subst k. simpl tl in *.
  set (e1 := {| data := d; timestamp := now; ttl := cacheTTL |}).
  unfold setCache. fold e1. rewrite set_absent by exact G.
  assert (B : (500 <? size (((k0, e) :: r) ++ [(w, e1)])) = true).
  { apply Z.ltb_lt. unfold size in *. rewrite length_app. simpl in *. lia. }
  rewrite B. unfold first_key. simpl.
  destruct k0 as [|u k0]; [congruence|]. simpl truthy. cbv iota.
  unfold delete at 1. simpl filter. rewrite jsstring_eqb_refl. simpl.
  change (filter (fun x => negb (jsstring_eqb (u :: k0) (fst x)))
            (r ++ [(w, e1)]))
    with (delete (u :: k0) (r ++ [(w, e1)])).
  apply delete_not_key.
  unfold keys. rewrite map_app. simpl. intros H. apply in_app_or in H.
  destruct H as [H|[H|[]]].
  - apply get_none_not_key in G0. exact (G0 H).
  - simpl in G. subst w. rewrite jsstring_eqb_refl in G. discriminate.
Qed.

(** X10.  Eviction is first in, first out.  When the cache holds 500
    entries, its oldest key is not empty and a key that is not in the cache
    is written, the cache afterwards is the old one without its oldest
    entry and with the new entry at the end: exactly one entry leaves, the
    one inserted first. *)
Theorem setCache_at_capacity_evicts_first_inserted
  cacheTTL c now w d k0 :
  size c = 500 -> first_key c = Some k0 -> k0 <> [] ->
  get k0 (tl c) = None -> get w c = None ->
  setCache cacheTTL c now w d
  = tl c ++ [(w, {| data := d; timestamp := now; ttl := cacheTTL |})].
Proof. apply setCache_full_drops_head. Qed.

(** X11.  Neither a read nor a rewrite refreshes an entry's place in the
    eviction order.  With the cache at 500 entries, reading the oldest
    entry (a hit) or writing a new value under its key leaves it the
    oldest: the next new key evicts it all the same. *)
Theorem oldest_entry_is_evicted_despite_use
  cacheTTL c k0 e0 tRead tWrite d1 now w d :
  size c = 500 -> first_key c = Some k0 -> k0 <> [] ->
  get k0 c = Some e0 -> get k0 (tl c) = None -> get w c = None ->
  tRead - timestamp e0 < ttl e0 ->
  setCache cacheTTL (snd (getFromCache c tRead k0)) now w d
  = tl c ++ [(w, {| data := d; timestamp := now; ttl := cacheTTL |})] /\
  setCache cacheTTL (setCache cacheTTL c tWrite k0 d1) now w d
  = tl c ++ [(w, {| data := d; timestamp := now; ttl := cacheTTL |})].
Proof.
  intros S F K G0 G1 G L. split.
  - rewrite (getFromCache_hit c tRead k0 e0 G0 L). simpl.
    apply setCache_full_drops_head with (k0 := k0); assumption.
  - destruct c as [|[k e] r]; [discriminate F|].
    unfold first_key in F. simpl in F. inversion F; subst k. simpl tl in *.
    set (e1 := {| data := d1; timestamp := tWrite; ttl := cacheTTL |}).
    assert (W : setCache cacheTTL ((k0, e) :: r) tWrite k0 d1 = (k0, e1) :: r).
    { unfold setCache. fold e1. simpl set. rewrite jsstring_eqb_refl.
      assert (B : (500 <? size ((k0, e1) :: r)) = false).
      { apply Z.ltb_ge. unfold size in *. simpl in *. lia. }
      rewrite B. reflexivity. }
    rewrite W.
    change r with (tl ((k0, e1) :: r)) at 2.
    apply setCache_full_drops_head with (k0 := k0); auto.
    simpl in G |- *. destruct (jsstring_eqb w k0); [discriminate | exact G].
Qed.

(** X12.  A cache operation touches only its own key and, for a write,
    the oldest key: reading [w] leaves the entry of every other key as it
    is, and writing [w] leaves the entry of every other key but the oldest
    as it is, expired or not. *)
Theorem cache_operations_leave_other_keys cacheTTL c now w d k :
  k <> w ->
  get k (snd (getFromCache c now w)) = get k c /\
  (first_key c <> Some k ->
   get k (setCache cacheTTL c now w d) = get k c).
Proof.
  intros N. split.
  - destruct (getFromCache_cache c now w) as [C|[e [_ [_ C]]]]; rewrite C;
      [reflexivity|].
    apply get_delete_other. congruence.
  - intros F.
    set (e1 := {| data := d; timestamp := now; ttl := cacheTTL |}).
    destruct (setCache_cases cacheTTL c now w d) as [E|[o [Fo [_ [_ E]]]]];
      rewrite E; fold e1.
    + apply get_set_other. congruence.
    + fold e1 in Fo. rewrite get_delete_other.
      * apply get_set_other. congruence.
      * intros ->. destruct c as [|[k0 e0] r].
        -- unfold first_key in Fo. simpl in Fo. congruence.
        -- unfold first_key in Fo, F. simpl in Fo, F.
           destruct (jsstring_eqb w k0); simpl in Fo; congruence.
Qed.

End CacheOrder.

Section ExplanationLength.
Context {I : Imports}.

(** X13.  The explanation [parseAIResponse] returns is never longer than
    203 code units (200 and the three dots) unless it is the placeholder:
    for a content that is not blank its length is at most 203, whatever
    the word; for a missing or blank content it is the placeholder, whose
    length is that of the word plus 8. *)
Theorem explanation_length_bound (content_ : option jsstring) (w : jsstring) :
  (forall c,
     content_ = Some c -> forallb isWhiteSpace c = false ->
     (List.length (explain (parseAIResponse content_ w)) <= 203)%nat) /\
  (match content_ with
   | Some c => forallb isWhiteSpace c = true
   | None => True
   end ->
   explain (parseAIResponse content_ w) = w ++ js " 的释义暂不可用" /\
   List.length (explain (parseAIResponse content_ w))
   = (List.length w + 8)%nat).
Proof.
  split.
  - intros c -> W. unfold parseAIResponse, or_else.
    assert (T : truthy (trim c) = true)
      by (rewrite truthy_trim, W; reflexivity).
    rewrite T. cbn [negb]. rewrite T. cbn [negb explain].
    destruct (200 <? List.length (cleanMarkdownFromResponse (trim c)))%nat
      eqn:L.
    + unfold substring0. rewrite length_app, length_firstn.
      change (List.length (js "...")) with 3%nat. lia.
    + apply Nat.ltb_ge in L. lia.
  - intros B. rewrite (parseAIResponse_blank content_ w B). cbn [explain].
    split; [reflexivity|]. rewrite length_app. reflexivity.
Qed.

End ExplanationLength.

(* ===================================================================== *)
(** * Further properties of the tooltip renderer *)
(* ===================================================================== *)

Section RendererViews.
Context {I : Imports}.

(** X14.  The word view shows an attached translation as it is: when the
    text has at most one token and a translation is attached, the meaning
    block of the main tooltip holds the meaning-text element with the
    explanation inside, copied without any escaping. *)
Theorem word_view_shows_attached_translation uiConfig elementData info t :
  (List.length (extractWords (word elementData)) <= 1)%nat ->
  phonetic elementData = Some info ->
  aiTranslation info = Some t ->
  contains (meaningBlock (meaningTextMarkup (explain t)))
           (createMainTooltipHTML uiConfig elementData).
Proof.
  intros L P A. unfold createMainTooltipHTML.
  apply Nat.ltb_ge in L. rewrite L.
  unfold createWordTooltipHTML, meaningBlock. rewrite P, A.
  do 4 apply contains_app_r. apply contains_between_more.
  - exists (tpl "
            "). vm_compute. reflexivity.
  - exists (tpl "
          </div>
          "). vm_compute. reflexivity.
Qed.

(** X15.  In the word view a resolved phonetic text wins over an error
    flag, while [updateTooltipWithPhonetic] looks at the error flag first:
    for phonetic data that carry both a text and an error, the first
    rendering shows the text and the later patch appends the error. *)
Theorem rendering_and_patch_disagree_on_priority w info e t rest :
  phoneticError info = Some e -> hasPhoneticError e = true ->
  phonetics info = {| text := Some t |} :: rest -> truthy t = true ->
  phoneticDisplayOf {| word := w; phonetic := Some info |}
  = tpl "<div class='wxt-phonetic-row'><div class='wxt-phonetic-text'>"
    ++ t ++ tpl "</div></div>" /\
  phoneticElementFor info
  = Element (js "div") [phoneticErrorClass] None
      [TextNode (or_else (match phoneticErrorMessage e with
                          | Some m => m
                          | None => []
                          end) (js "音标获取失败"))].
Proof.
  intros E H P T. split.
  - unfold phoneticDisplayOf. cbn [phonetic]. rewrite P. cbn [text].
    unfold or_else. rewrite T, T. reflexivity.
  - unfold phoneticElementFor. rewrite E, H.
    unfold or_else.
    destruct (phoneticErrorMessage e) as [[|u m]|]; reflexivity.
Qed.

End RendererViews.

Section ErrorWithoutMessage.

(** X16.  An error flagged without a message is shown differently by the
    three places that render it: the word view prints the word
    [undefined], the nested word tooltip and the patch fall back to
    [音标获取失败]. *)
Theorem error_without_message_rendering w info :
  phonetics info = [] ->
  phoneticError info
  = Some {| hasPhoneticError := true; phoneticErrorMessage := None |} ->
  phoneticDisplayOf {| word := w; phonetic := Some info |}
  = tpl "<div class='wxt-phonetic-row'><div class='wxt-phonetic-error'>"
    ++ js "undefined" ++ tpl "</div></div>" /\
  nestedPhoneticDisplay None (Some true) None
  = tpl "<div class='wxt-phonetic-error'>" ++ js "音标获取失败"
    ++ tpl "</div>" /\
  textContent (phoneticElementFor info) = js "音标获取失败".
Proof.
  intros P E. split; [|split].
  - unfold phoneticDisplayOf. cbn [phonetic]. rewrite P, E. reflexivity.
  - reflexivity.
  - unfold phoneticElementFor. rewrite E. vm_compute. reflexivity.
Qed.

(** X17.  The nested word tooltip always starts with the meaning still
    loading: whatever the word and the phonetic arguments, its meaning
    block holds the loading placeholder. *)
Theorem nested_tooltip_starts_with_loading_meaning
  speakerSmall w phoneticText hasError errorMessage :
  contains (meaningBlock meaningLoadingMarkup)
    (createNestedWordTooltipHTML speakerSmall w phoneticText hasError
       errorMessage).
Proof.
  unfold createNestedWordTooltipHTML. cbv zeta.
  do 8 apply contains_app_r.
  exists (tpl "</div>
            "), (tpl "
          </div>
        </div>
      </div>
    ").
  vm_compute. reflexivity.
Qed.

End ErrorWithoutMessage.

Section PhoneticPatch.

Lemma countNode_created_div c cls s :
  countNode c (setTextContent s (createDiv cls))
  = if inClassList c [cls] then 1%nat else 0%nat.
Proof.
  unfold createDiv. cbn [setTextContent countNode].
  destruct (inClassList c [cls]), (truthy s); reflexivity.
Qed.

Lemma phoneticElementFor_no_loading info :
  countNode phoneticLoadingClass (phoneticElementFor info) = 0%nat.
Proof.
  assert (E : inClassList phoneticLoadingClass [phoneticErrorClass] = false)
    by (vm_compute; reflexivity).
  assert (T : inClassList phoneticLoadingClass [phoneticTextClass] = false)
    by (vm_compute; reflexivity).
  unfold phoneticElementFor.
  destruct (match phoneticError info with
            | Some e => hasPhoneticError e
            | None => false
            end).
  - rewrite countNode_created_div, E. reflexivity.
  - destruct (phonetics info) as [|first rest].
    + rewrite countNode_created_div, E. reflexivity.
    + cbv zeta.
      destruct (truthy (or_else (match text first with
                                 | Some t => t
                                 | None => []
                                 end) [])).
      * rewrite countNode_created_div, T. reflexivity.
      * rewrite countNode_created_div, E. reflexivity.
Qed.

Lemma rewriteForest_single cls g t classes d ch :
  inClassList cls classes = true ->
  rewriteForest cls g [Element t classes d ch]
  = Some (g (Element t classes d ch) ++ []).
Proof. intros X. unfold rewriteForest. simpl. rewrite X. reflexivity. Qed.

(** Taking out the first element that carries [cls] leaves none when
    there was at most one. *)
Lemma remove_first_leaves_none cls ch :
  (countForest cls ch <= 1)%nat ->
  countForest cls
    (match rewriteForest cls (fun _ => []) ch with
     | Some ch' => ch'
     | None => ch
     end) = 0%nat.
Proof.
  intros H. destruct (findForest cls ch) as [x|] eqn:F.
  - destruct (decompose cls ch x F)
      as [ctx [[Hn _ _] [E [[tx [cx [dx [chx [-> X]]]]] G]]]].
    rewrite (G (fun _ => [])).
    pose proof (Hn cls [Element tx cx dx chx]) as N1.
    rewrite E, countForest_cons in N1.
    pose proof (countNode_carrier cls tx cx dx chx X).
    change (countForest cls []) with 0%nat in N1. lia.
  - destruct (findForest_none cls ch F) as [R C]. rewrite R. exact C.
Qed.

(** X18.  [updateTooltipWithPhonetic] is not idempotent.  Each call takes
    the loading placeholder out of the phonetic row, if there is one, and
    appends one new element at the end of the row; a second call appends a
    second element after the first, so the results pile up. *)
Theorem phonetic_patch_appends_each_time tooltip row info1 info2 :
  querySelector phoneticRowClass tooltip = Some row ->
  (countForest phoneticLoadingClass (children row) <= 1)%nat ->
  exists row1 row2,
    querySelector phoneticRowClass (updateTooltipWithPhonetic tooltip info1)
    = Some row1 /\
    children row1
    = match rewriteForest phoneticLoadingClass (fun _ => [])
              (children row) with
      | Some ch' => ch'
      | None => children row
      end ++ [phoneticElementFor info1] /\
    querySelector phoneticRowClass
      (updateTooltipWithPhonetic (updateTooltipWithPhonetic tooltip info1)
         info2)
    = Some row2 /\
    children row2 = children row1 ++ [phoneticElementFor info2].
Proof.
  intros Q HL.
  destruct tooltip as [t0 cl0 d0 ch0|s]; [|discriminate Q].
  unfold querySelector in Q. simpl in Q.
  destruct (decompose phoneticRowClass ch0 row Q)
    as [ctx [[Hn Hr Hf] [E [[tr [cr [dr [chr [-> X]]]]] G]]]].
  simpl children in *.
  set (rest := match rewriteForest phoneticLoadingClass (fun _ => []) chr with
               | Some ch' => ch'
               | None => chr
               end).
  set (row1 := Element tr cr dr (rest ++ [phoneticElementFor info1])).
  set (row2 := Element tr cr dr
                 ((rest ++ [phoneticElementFor info1])
                  ++ [phoneticElementFor info2])).
  assert (P1 : patchPhoneticRow info1 (Element tr cr dr chr) = row1)
    by reflexivity.
  assert (Z : countForest phoneticLoadingClass
                (rest ++ [phoneticElementFor info1]) = 0%nat).
  { rewrite countForest_app, countForest_cons.
    unfold rest. rewrite (remove_first_leaves_none _ _ HL).
    rewrite phoneticElementFor_no_loading. reflexivity. }
  assert (P2 : patchPhoneticRow info2 row1 = row2).
  { unfold row1, row2, patchPhoneticRow.
    apply countForest_zero in Z.
    destruct (findForest_none phoneticLoadingClass _ Z) as [R _].
    rewrite R. reflexivity. }
  assert (F : forall chx,
            findForest phoneticRowClass [Element tr cr dr chx]
            = Some (Element tr cr dr chx)).
  { intros chx. unfold findForest. simpl. rewrite X. reflexivity. }
  assert (U1 : updateTooltipWithPhonetic (Element t0 cl0 d0 ch0) info1
               = Element t0 cl0 d0 (ctx [row1])).
  { unfold updateTooltipWithPhonetic.
    rewrite (G (fun r => [patchPhoneticRow info1 r])), P1. reflexivity. }
  assert (U2 : updateTooltipWithPhonetic (Element t0 cl0 d0 (ctx [row1]))
                 info2
               = Element t0 cl0 d0 (ctx [row2])).
  { unfold updateTooltipWithPhonetic.
    rewrite (Hr (fun r => [patchPhoneticRow info2 r]) [row1] [row2]);
      [reflexivity|].
    unfold row1 at 1.
    rewrite (rewriteForest_single phoneticRowClass _ tr cr dr _ X).
    fold row1. cbn [app]. rewrite P2. reflexivity. }
  exists row1, row2. rewrite U1, U2. unfold querySelector. simpl children.
  repeat split.
  - apply Hf. apply F.
  - apply Hf. apply F.
Qed.

End PhoneticPatch.

(* ===================================================================== *)
(** * Further properties of the background checks *)
(* ===================================================================== *)

Section BackgroundChecks.

(** X19.  A [validate-configuration] request is answered [true] exactly
    when the settings could be read and the active configuration has an
    API key, whatever the flag and the source of the request; when the
    answer is [true], or the settings could not be read, no notification
    is created and the flag is left as it is. *)
Theorem validate_configuration_answer bg req :
  snd (onValidateConfiguration bg req)
  = match settingsRead req with
    | Some settings => isConfigValid settings
    | None => false
    end /\
  (snd (onValidateConfiguration bg req) = true \/ settingsRead req = None ->
   fst (onValidateConfiguration bg req) = bg).
Proof.
  unfold onValidateConfiguration.
  destruct (settingsRead req) as [settings|]; [|split; auto].
  destruct (isConfigValid settings); [split; auto|].
  destruct (isUserAction (requestSource req));
    [split; [reflexivity | intros [H|H]; discriminate H]|].
  destruct (apiKeyNotificationShown bg);
    split; try reflexivity; intros [H|H]; discriminate H.
Qed.

(** X20.  The [translate-page] command does not look at the session flag.
    With no API key in the active configuration it creates the
    notification every time, leaves the flag as it is and sends nothing to
    any tab; with a key it creates nothing and sends the command to the
    first active tab when that tab has a non-zero id.  Any other command
    does nothing. *)
Theorem translate_page_command bg ev :
  (command ev <> js "translate-page" -> onCommand bg ev = (bg, [])) /\
  (command ev = js "translate-page" ->
   forall settings,
     commandSettings ev = Some settings ->
     (isConfigValid settings = false ->
      onCommand bg ev
      = ({| apiKeyNotificationShown := apiKeyNotificationShown bg;
            created := apiKeyNotification :: created bg |}, [])) /\
     (isConfigValid settings = true ->
      fst (onCommand bg ev) = bg /\
      snd (onCommand bg ev)
      = match activeTabs ev with
        | Some ({| tabId := Some i |} :: _) =>
          if (i =? 0)%Z then [] else [(i, js "translate-page-command")]
        | _ => []
        end)).
Proof.
  unfold onCommand. split.
  - intros N. apply jsstring_eqb_neq in N. rewrite N. reflexivity.
  - intros C settings S. rewrite C, jsstring_eqb_refl.
    unfold validateApiConfiguration. rewrite S. split; intros V; rewrite V.
    + reflexivity.
    + cbn [negb].
      destruct (activeTabs ev) as [[|[[i|]] tabs]|]; try (split; reflexivity).
      destruct (i =? 0)%Z; split; reflexivity.
Qed.

End BackgroundChecks.

Section CacheLifetime.
Context {I : Imports}.
Import JsMap JsMapFacts.

Lemma set_keeps_lifetime (T : Z) (c : Cache) k e :
  Forall (fun ke => ttl (snd ke) = T) c -> ttl e = T ->
  Forall (fun ke => ttl (snd ke) = T) (set k e c).
Proof.
  intros H E. induction H as [|[k0 e0] r H0 Hr IH]; simpl.
  - constructor; [exact E | constructor].
  - destruct (jsstring_eqb k k0); constructor; simpl; auto.
Qed.

Lemma delete_keeps_lifetime (T : Z) (c : Cache) k :
  Forall (fun ke => ttl (snd ke) = T) c ->
  Forall (fun ke => ttl (snd ke) = T) (delete k c).
Proof.
  intros H. apply Forall_forall. intros x Hx.
  apply filter_In in Hx. rewrite Forall_forall in H. apply H. tauto.
Qed.

Lemma getMeaning_keeps_lifetime p tEnter tSettle reply word :
  Forall (fun ke => ttl (snd ke) = cacheTTL p) (cache p) ->
  cacheTTL (fst (fst (getMeaning p tEnter tSettle reply word))) = cacheTTL p /\
  Forall (fun ke => ttl (snd ke) = cacheTTL p)
    (cache (fst (fst (getMeaning p tEnter tSettle reply word)))).
Proof.
  intros H. unfold getMeaning.
  destruct word as [| |s|]; try solve [simpl; auto].
  destruct (truthy s) eqn:T;
    [|unfold getMeaning_enter; rewrite T; simpl; auto].
  rewrite (getMeaning_enter_string p tEnter s T). cbv zeta.
  set (w := trim (toLowerCase s)).
  assert (H1 : Forall (fun ke => ttl (snd ke) = cacheTTL p)
                 (snd (getFromCache (cache p) tEnter w))).
  { destruct (getFromCache_cache (cache p) tEnter w) as [C|[e [_ [_ C]]]];
      rewrite C; [exact H | apply delete_keeps_lifetime; exact H]. }
  destruct (fst (getFromCache (cache p) tEnter w)); [simpl; auto|].
  destruct (truthy (apiKey (apiConfig p))); [|simpl; auto].
  set (p0 := withCache p (snd (getFromCache (cache p) tEnter w))).
  destruct (getMeaning_settle_result p0 tSettle w reply)
    as [[_ Q]|[result [_ [_ R]]]].
  - destruct (getMeaning_settle p0 tSettle w reply) as [p2 r2].
    simpl in *. subst p2. simpl. auto.
  - rewrite R. unfold p0. cbn [fst snd cache cacheTTL withCache].
    split; [reflexivity|].
    destruct (setCache_cases (cacheTTL p)
                (snd (getFromCache (cache p) tEnter w)) tSettle w
                (parseAIResponse (content result) w))
      as [E|[o [_ [_ [_ E]]]]]; rewrite E.
    + apply set_keeps_lifetime; [exact H1 | reflexivity].
    + apply delete_keeps_lifetime.
      apply set_keeps_lifetime; [exact H1 | reflexivity].
Qed.

(** X21.  Every entry the provider caches carries the provider's own
    lifetime: if all entries of the cache have [ttl = cacheTTL], then so
    they have after any series of calls, and [cacheTTL] itself never
    changes.  An entry therefore expires exactly [cacheTTL] after the reply
    that stored it. *)
Theorem getMeanings_keep_the_lifetime calls : forall p,
  Forall (fun ke => ttl (snd ke) = cacheTTL p) (cache p) ->
  cacheTTL (fst (fst (getMeanings p calls))) = cacheTTL p /\
  Forall (fun ke => ttl (snd ke) = cacheTTL p)
    (cache (fst (fst (getMeanings p calls)))).
Proof.
  induction calls as [|c calls IH]; intros p H; [simpl; auto|].
  destruct (getMeaning_keeps_lifetime p (callEnter c) (callSettle c)
              (callReply c) (callWord c) H) as [T1 H1].
  simpl getMeanings.
  destruct (getMeaning p (callEnter c) (callSettle c) (callReply c)
              (callWord c)) as [[p1 r] sent].
  cbn [fst snd] in *. rewrite <- T1 in H1.
  destruct (IH p1 H1) as [T2 H2].
  destruct (getMeanings p1 calls) as [[p2 rs] sent'].
  cbn [fst snd] in *. rewrite T2, T1 in *. auto.
Qed.

End CacheLifetime.

(* ===================================================================== *)
(** * The further properties on sample inputs *)
(* ===================================================================== *)

Lemma getMeaning_refuses_invalid_argument_witness :
  @getMeaning sampleImports freshProvider 0 1 (answer "n. nothing") JNull
  = (freshProvider, failed invalidWordMessage, []).
Proof.
  apply (@getMeaning_refuses_invalid_argument sampleImports freshProvider
           0 1 (answer "n. nothing") JNull).
  intros s H. discriminate H.
Defined.

Lemma getMeaning_shares_entry_across_spellings_witness :
  @getMeaning sampleImports helloProvider 2000 2001 (Rejected None)
    (JString (js " HELLO "))
  = (helloProvider,
     {| success := true; resultData := Some helloEntry; cached := Some true;
        error := None |},
     []).
Proof.
  refine (@getMeaning_shares_entry_across_spellings sampleImports
            freshProvider 1000 1200 (answer "interj. 你好；n. 打招呼")
            (js "hello") helloProvider (succeeded helloEntry false) _
            (js " HELLO ") 2000 2001 (Rejected None) _ _ _ _ _ _).
  - vm_compute; reflexivity.
  - reflexivity.
  - reflexivity.
  - reflexivity.
  - vm_compute; reflexivity.
  - simpl; lia.
Defined.

Lemma blank_reply_is_cached_as_placeholder_witness :
  snd (fst (@getMeaning sampleImports freshProvider 10 20
              (Fulfilled blankResult) (JString (js "glorp"))))
  = succeeded
      {| explain := trim (asciiToLowerCase (js "glorp"))
                    ++ js " 的释义暂不可用";
         source := js "ai-translation" |} false.
Proof.
  refine (proj1 (@blank_reply_is_cached_as_placeholder sampleImports
            freshProvider 10 20 (js "glorp") blankResult 30 40
            (Rejected None) _ _ _ _ _ _)).
  - reflexivity.
  - vm_compute; reflexivity.
  - reflexivity.
  - reflexivity.
  - vm_compute; reflexivity.
  - simpl; lia.
Defined.

Lemma failed_call_is_asked_again_witness :
  snd (@getMeaning sampleImports freshProvider 5 6 (answer "interj. 你好")
         (JString (js "hello")))
  = [(trim (asciiToLowerCase (js "hello")), callOptions freshProvider)].
Proof.
  refine (@failed_call_is_asked_again sampleImports freshProvider 1 2
            (Rejected None) (js "hello") freshProvider
            (failed unknownErrorMessage) _ 5 6 (answer "interj. 你好")
            _ _ _ _).
  - reflexivity.
  - reflexivity.
  - vm_compute; reflexivity.
  - reflexivity.
Defined.

Lemma updateApiConfig_keeps_the_cache_witness :
  apiConfig (updateApiConfig (staleProvider "sk-test") (sampleConfig "")
               None)
  = sampleConfig "" /\
  timeout (updateApiConfig (staleProvider "sk-test") (sampleConfig "") None)
  = timeout (staleProvider "sk-test") /\
  cache (updateApiConfig (staleProvider "sk-test") (sampleConfig "") None)
  = cache (staleProvider "sk-test") /\
  cacheTTL (updateApiConfig (staleProvider "sk-test") (sampleConfig "") None)
  = cacheTTL (staleProvider "sk-test") /\
  @getMeaning sampleImports
    (updateApiConfig (staleProvider "sk-test") (sampleConfig "") None)
    100 101 (Rejected None) (JString (js "hello"))
  = (updateApiConfig (staleProvider "sk-test") (sampleConfig "") None,
     succeeded helloEntry true, []).
Proof.
  refine (@updateApiConfig_keeps_the_cache sampleImports
            (staleProvider "sk-test") (sampleConfig "") None 100 101
            (Rejected None) (js "hello")
            {| data := helloEntry; timestamp := 0; ttl := 86400000 |}
            _ _ _).
  - reflexivity.
  - vm_compute; reflexivity.
  - simpl; lia.
Defined.

Lemma getMeanings_cache_bound_witness :
  JsMap.size
    (cache (fst (fst (@getMeanings sampleImports freshProvider manyCalls))))
  <= 500.
Proof.
  apply (@getMeanings_cache_bound sampleImports manyCalls freshProvider).
  - vm_compute; discriminate.
  - intros k H; destruct H.
  - apply Forall_forall. intros c Hc s Hs.
    assert (B : forallb (fun c => match callWord c with
                                  | JString s =>
                                    truthy (trim (asciiToLowerCase s))
                                  | _ => true
                                  end) manyCalls = true)
      by (vm_compute; reflexivity).
    rewrite forallb_forall in B. specialize (B c Hc). rewrite Hs in B.
    intros E. simpl toLowerCase in E. rewrite E in B. discriminate B.
Defined.

Lemma startBatch_sends_one_request_per_word_witness :
  requestsOf
    (snd (@startBatch sampleImports freshProvider
            (map (fun tw => (fst tw, JString (snd tw)))
                 [(0, js "hello"); (0, js "Hello")])))
  = map (fun tw => (trim (asciiToLowerCase (snd tw)),
                    callOptions freshProvider))
        [(0, js "hello"); (0, js "Hello")].
Proof.
  apply (@startBatch_sends_one_request_per_word sampleImports
           [(0, js "hello"); (0, js "Hello")] freshProvider).
  - reflexivity.
  - repeat constructor; vm_compute; reflexivity.
Defined.

Lemma setCache_at_capacity_evicts_first_inserted_witness :
  setCache 86400000 fullCache 1000 (js "hello") helloEntry
  = tl fullCache
    ++ [(js "hello",
         {| data := helloEntry; timestamp := 1000; ttl := 86400000 |})].
Proof.
  apply (setCache_at_capacity_evicts_first_inserted 86400000 fullCache 1000
           (js "hello") helloEntry (numberedWord 1)).
  - vm_compute; reflexivity.
  - vm_compute; reflexivity.
  - vm_compute; discriminate.
  - vm_compute; reflexivity.
  - vm_compute; reflexivity.
Defined.

Lemma oldest_entry_is_evicted_despite_use_witness :
  setCache 86400000 (snd (getFromCache fullCache 600 (numberedWord 1)))
    1000 (js "hello") helloEntry
  = tl fullCache
    ++ [(js "hello",
         {| data := helloEntry; timestamp := 1000; ttl := 86400000 |})] /\
  setCache 86400000
    (setCache 86400000 fullCache 700 (numberedWord 1) helloEntry)
    1000 (js "hello") helloEntry
  = tl fullCache
    ++ [(js "hello",
         {| data := helloEntry; timestamp := 1000; ttl := 86400000 |})].
Proof.
  apply (oldest_entry_is_evicted_despite_use 86400000 fullCache
           (numberedWord 1)
           {| data := helloEntry; timestamp := 1; ttl := 86400000 |}
           600 700 helloEntry 1000 (js "hello") helloEntry).
  - vm_compute; reflexivity.
  - vm_compute; reflexivity.
  - vm_compute; discriminate.
  - vm_compute; reflexivity.
  - vm_compute; reflexivity.
  - vm_compute; reflexivity.
  - simpl; lia.
Defined.

Lemma cache_operations_leave_other_keys_witness :
  JsMap.get (js "hello")
    (snd (getFromCache twoEntryCache 90000000 (js "apple")))
  = JsMap.get (js "hello") twoEntryCache /\
  JsMap.get (js "hello")
    (setCache 86400000 twoEntryCache 90000000 (js "world") helloEntry)
  = JsMap.get (js "hello") twoEntryCache.
Proof.
  split.
  - refine (proj1 (cache_operations_leave_other_keys 86400000 twoEntryCache
                     90000000 (js "apple") helloEntry (js "hello") _)).
    vm_compute; discriminate.
  - refine (proj2 (cache_operations_leave_other_keys 86400000 twoEntryCache
                     90000000 (js "world") helloEntry (js "hello") _) _).
    + vm_compute; discriminate.
    + vm_compute; discriminate.
Defined.

Lemma word_view_shows_attached_translation_witness :
  contains (meaningBlock (meaningTextMarkup (explain helloEntry)))
    (@createMainTooltipHTML sampleImports {| showPlayButton := false |}
       translatedHello).
Proof.
  apply (@word_view_shows_attached_translation sampleImports
           {| showPlayButton := false |} translatedHello
           {| phonetics := []; aiTranslation := Some helloEntry;
              phoneticError := None |} helloEntry).
  - vm_compute; lia.
  - reflexivity.
  - reflexivity.
Defined.

Lemma rendering_and_patch_disagree_on_priority_witness :
  phoneticDisplayOf {| word := js "leg"; phonetic := Some textAndError |}
  = tpl "<div class='wxt-phonetic-row'><div class='wxt-phonetic-text'>"
    ++ js "/leg/" ++ tpl "</div></div>" /\
  phoneticElementFor textAndError
  = Element (js "div") [phoneticErrorClass] None
      [TextNode (or_else (js "timeout") (js "音标获取失败"))].
Proof.
  apply (rendering_and_patch_disagree_on_priority (js "leg") textAndError
           {| hasPhoneticError := true;
              phoneticErrorMessage := Some (js "timeout") |}
           (js "/leg/") []).
  - reflexivity.
  - reflexivity.
  - reflexivity.
  - reflexivity.
Defined.

Lemma error_without_message_rendering_witness :
  phoneticDisplayOf
    {| word := js "leg"; phonetic := Some errorWithoutMessage |}
  = tpl "<div class='wxt-phonetic-row'><div class='wxt-phonetic-error'>"
    ++ js "undefined" ++ tpl "</div></div>" /\
  nestedPhoneticDisplay None (Some true) None
  = tpl "<div class='wxt-phonetic-error'>" ++ js "音标获取失败"
    ++ tpl "</div>" /\
  textContent (phoneticElementFor errorWithoutMessage) = js "音标获取失败".
Proof.
  apply (error_without_message_rendering (js "leg") errorWithoutMessage).
  - reflexivity.
  - reflexivity.
Defined.

Lemma phonetic_patch_appends_each_time_witness :
  exists row1 row2,
    querySelector phoneticRowClass
      (updateTooltipWithPhonetic helloTooltip resolvedPhonetic)
    = Some row1 /\
    children row1
    = match rewriteForest phoneticLoadingClass (fun _ => [])
              (children
                 (div "wxt-phonetic-row" [
                    div "wxt-phonetic-loading"
                      [TextNode (js "获取音标中...")]])) with
      | Some ch' => ch'
      | None =>
        children
          (div "wxt-phonetic-row" [
             div "wxt-phonetic-loading" [TextNode (js "获取音标中...")]])
      end ++ [phoneticElementFor resolvedPhonetic] /\
    querySelector phoneticRowClass
      (updateTooltipWithPhonetic
         (updateTooltipWithPhonetic helloTooltip resolvedPhonetic)
         resolvedPhonetic)
    = Some row2 /\
    children row2 = children row1 ++ [phoneticElementFor resolvedPhonetic].
Proof.
  apply (phonetic_patch_appends_each_time helloTooltip
           (div "wxt-phonetic-row" [
              div "wxt-phonetic-loading" [TextNode (js "获取音标中...")]])
           resolvedPhonetic resolvedPhonetic).
  - vm_compute. reflexivity.
  - vm_compute. lia.
Defined.

Lemma validate_configuration_answer_witness :
  snd (onValidateConfiguration flaggedBackground unreadableRequest) = false /\
  fst (onValidateConfiguration flaggedBackground unreadableRequest)
  = flaggedBackground.
Proof.
  split.
  - exact (proj1 (validate_configuration_answer flaggedBackground
                    unreadableRequest)).
  - exact (proj2 (validate_configuration_answer flaggedBackground
                    unreadableRequest) (or_intror eq_refl)).
Defined.

Lemma translate_page_command_witness :
  onCommand flaggedBackground translatePageWithoutKey
  = ({| apiKeyNotificationShown := true;
        created := [apiKeyNotification] |}, []).
Proof.
  exact (proj1 (proj2 (translate_page_command flaggedBackground
                         translatePageWithoutKey)
                  eq_refl keylessSettings eq_refl) eq_refl).
Defined.

Lemma getMeanings_keep_the_lifetime_witness :
  cacheTTL (fst (fst (@getMeanings sampleImports freshProvider
                        storingCalls)))
  = cacheTTL freshProvider /\
  Forall (fun ke => ttl (snd ke) = cacheTTL freshProvider)
    (cache (fst (fst (@getMeanings sampleImports freshProvider
                        storingCalls)))).
Proof.
  apply (@getMeanings_keep_the_lifetime sampleImports storingCalls
           freshProvider).
  constructor.
Defined.

Lemma explanation_length_bound_witness :
  (List.length
     (explain (@parseAIResponse sampleImports (Some (repeat 97%N 300))
                 (js "supercalifragilistic")))
   <= 203)%nat /\
  List.length
    (explain (@parseAIResponse sampleImports (Some (js "  "))
                (js "supercalifragilistic")))
  = (List.length (js "supercalifragilistic") + 8)%nat.
Proof.
  split.
  - refine (proj1 (@explanation_length_bound sampleImports
                     (Some (repeat 97%N 300)) (js "supercalifragilistic"))
              (repeat 97%N 300) eq_refl _).
    vm_compute; reflexivity.
  - refine (proj2 (proj2 (@explanation_length_bound sampleImports
                            (Some (js "  ")) (js "supercalifragilistic"))
                     _)).
    vm_compute; reflexivity.
Defined.
